(** * Dependency-graph cycle detector (circular_deps.py)

    A shallow embedding of
    [examples/skills/dependency-analyzer/scripts/circular_deps.py]:
    import extraction, import resolution, graph construction, the
    depth-first cycle finder and the de-duplication pass of [main].

    Conventions.
    - A [Path] is modelled by its string form ([str(p)]); a graph node is a
      canonical path, [Node := string].
    - A Python [dict] is an association list in insertion order (the order
      [for node in graph] follows); a [set] that the code iterates over is
      the list of its elements in iteration order, and all results on
      [find_cycles] hold for every such order.  Sets that are only tested
      for membership ([visited], [rec_stack], [seen]) are [gset]s.
    - Operations that raise in Python ([list.index], [list.pop],
      [set.remove], [min] of an empty sequence, [Path.read_text]) return in
      the [result] monad.  Recursion is bounded by a depth budget, as the
      interpreter's recursion limit bounds it; [find_cycles] is given the
      budget [S (number of nodes)] and is proved never to exhaust it. *)

From Stdlib Require Import Ascii String.
From Stdlib Require OrdersEx.
From stdpp Require Import gmap strings list sorting.

Local Open Scope string_scope.
Local Open Scope nat_scope.
Local Open Scope list_scope.

(** ** Outcomes of Python computations *)

Inductive exn : Type :=
  | ValueError      (* list.index of an absent element, min of an empty sequence *)
  | KeyError        (* set.remove of an absent element *)
  | IndexError      (* pop from an empty list *)
  | OSError         (* the file cannot be opened or read *)
  | RecursionError. (* the depth budget is exhausted *)

Inductive result (A : Type) : Type :=
  | Ok (a : A)
  | Raise (e : exn).
Arguments Ok {A} a.
Arguments Raise {A} e.

#[global] Instance result_ret : MRet result := λ A a, Ok a.
#[global] Instance result_bind : MBind result := λ A B f m,
  match m with
  | Ok a => f a
  | Raise e => Raise e
  end.

(** [for x in l: body], threading the mutated state and stopping at the
    first exception. *)
Fixpoint for_each {A S : Type} (body : S → A → result S) (l : list A) (s : S)
  : result S :=
  match l with
  | [] => Ok s
  | x :: l' => s' ← body s x; for_each body l' s'
  end.

(** ** Data model *)

Definition Node : Type := string.
Definition Cycle : Type := list Node.
Definition Graph : Type := list (Node * list Node).

(** [d.get(k)] on an insertion-ordered dictionary. *)
Fixpoint dict_get {V : Type} (d : list (Node * V)) (k : Node) : option V :=
  match d with
  | [] => None
  | (k', v) :: d' => if decide (k' = k) then Some v else dict_get d' k
  end.

(** [graph.get(node, set())] *)
Definition graph_get (graph : Graph) (node : Node) : list Node :=
  default [] (dict_get graph node).

(** [l.index(x)] *)
Fixpoint list_index (x : Node) (l : list Node) : result nat :=
  match l with
  | [] => Raise ValueError
  | y :: l' => if decide (y = x) then Ok 0 else i ← list_index x l'; Ok (S i)
  end.

(** [l.pop()] (the popped element is not used by the callers). *)
Definition list_pop (l : list Node) : result (list Node) :=
  match l with
  | [] => Raise IndexError
  | _ => Ok (removelast l)
  end.

(** [s.remove(x)] *)
Definition set_remove (x : Node) (s : gset Node) : result (gset Node) :=
  if decide (x ∈ s) then Ok (s ∖ {[x]}) else Raise KeyError.

(** ** Cycle finder *)

(** The four variables of [find_cycles] that the closure [dfs] mutates. *)
Record dfs_state : Type := DfsState {
  cycles : list Cycle;
  visited : gset Node;
  rec_stack : gset Node;
  path : list Node
}.

Definition dfs_enter (node : Node) (st : dfs_state) : dfs_state :=
  {| cycles := cycles st;
     visited := {[node]} ∪ visited st;
     rec_stack := {[node]} ∪ rec_stack st;
     path := path st ++ [node] |}.

Definition record_cycle (neighbor : Node) (st : dfs_state) : result dfs_state :=
  cycle_start ← list_index neighbor (path st);
  let cycle := drop cycle_start (path st) ++ [neighbor] in
  Ok {| cycles := cycles st ++ [cycle];
        visited := visited st;
        rec_stack := rec_stack st;
        path := path st |}.

Definition dfs_leave (node : Node) (st : dfs_state) : result dfs_state :=
  path' ← list_pop (path st);
  rec_stack' ← set_remove node (rec_stack st);
  Ok {| cycles := cycles st;
        visited := visited st;
        rec_stack := rec_stack';
        path := path' |}.

(** The body of [for neighbor in graph.get(node, set())], with the
    recursive call abstracted as [rec]. *)
Definition dfs_visit (rec : Node → dfs_state → result dfs_state)
    (st : dfs_state) (neighbor : Node) : result dfs_state :=
  if decide (neighbor ∉ visited st) then rec neighbor st
  else if decide (neighbor ∈ rec_stack st) then record_cycle neighbor st
  else Ok st.

Fixpoint dfs (fuel : nat) (graph : Graph) (node : Node) (st : dfs_state)
  : result dfs_state :=
  match fuel with
  | 0 => Raise RecursionError
  | S fuel' =>
      st ← for_each (dfs_visit (dfs fuel' graph)) (graph_get graph node)
             (dfs_enter node st);
      dfs_leave node st
  end.

(** Every node the traversal can meet: the keys and all edge targets. *)
Definition graph_nodes (graph : Graph) : list Node :=
  graph.*1 ++ concat graph.*2.

Definition dfs_init : dfs_state :=
  {| cycles := []; visited := ∅; rec_stack := ∅; path := [] |}.

(** The body of [for node in graph]. *)
Definition dfs_start (graph : Graph) (st : dfs_state) (node : Node)
  : result dfs_state :=
  if decide (node ∉ visited st)
  then dfs (S (length (graph_nodes graph))) graph node st
  else Ok st.

Definition find_cycles (graph : Graph) : result (list Cycle) :=
  st ← for_each (dfs_start graph) graph.*1 dfs_init;
  Ok (cycles st).

(** *** The traversal with its events logged

    [dfs_traced] is [dfs] with a log of the calls: [Enter n] when [dfs(n)]
    marks [n] active, [Leave n] when it marks [n] done.  The log is never
    read; [dfs_traced_erase] shows that dropping it gives [dfs] back. *)

Inductive dfs_event : Type :=
  | Enter (n : Node)
  | Leave (n : Node).

#[global] Instance dfs_event_eq_dec : EqDecision dfs_event.
Proof. solve_decision. Defined.

Definition traced : Type := dfs_state * list dfs_event.

Definition result_map {A B : Type} (f : A → B) (m : result A) : result B :=
  match m with
  | Ok a => Ok (f a)
  | Raise e => Raise e
  end.

Definition dfs_visit_traced (rec : Node → traced → result traced)
    (s : traced) (neighbor : Node) : result traced :=
  if decide (neighbor ∉ visited s.1) then rec neighbor s
  else if decide (neighbor ∈ rec_stack s.1)
       then st ← record_cycle neighbor s.1; Ok (st, s.2)
       else Ok s.

Fixpoint dfs_traced (fuel : nat) (graph : Graph) (node : Node) (s : traced)
  : result traced :=
  match fuel with
  | 0 => Raise RecursionError
  | S fuel' =>
      s ← for_each (dfs_visit_traced (dfs_traced fuel' graph))
            (graph_get graph node) (dfs_enter node s.1, s.2 ++ [Enter node]);
      st ← dfs_leave node s.1;
      Ok (st, s.2 ++ [Leave node])
  end.

Definition dfs_start_traced (graph : Graph) (s : traced) (node : Node)
  : result traced :=
  if decide (node ∉ visited s.1)
  then dfs_traced (S (length (graph_nodes graph))) graph node s
  else Ok s.

Definition find_cycles_traced (graph : Graph)
  : result (list Cycle * list dfs_event) :=
  s ← for_each (dfs_start_traced graph) graph.*1 (dfs_init, []);
  Ok (cycles s.1, s.2).

(** How often [dfs] was entered on, and left, a node. *)
Definition enter_count (n : Node) (log : list dfs_event) : nat :=
  length (filter (λ e, e = Enter n) log).
Definition leave_count (n : Node) (log : list dfs_event) : nat :=
  length (filter (λ e, e = Leave n) log).

(** The three states of a node during the traversal. *)
Inductive node_status : Type := Unvisited | Active | Finished.

Definition status (st : dfs_state) (n : Node) : node_status :=
  if decide (n ∈ rec_stack st) then Active
  else if decide (n ∈ visited st) then Finished
  else Unvisited.

(** Active nodes have been visited. *)
Definition dfs_inv_stack_visited (st : dfs_state) : Prop :=
  rec_stack st ⊆ visited st.

(** ** Graph-theoretic vocabulary *)

(** [u → v] is an edge when [v] is in [graph.get(u, set())]. *)
Definition edge (graph : Graph) (u v : Node) : Prop := v ∈ graph_get graph u.

(** Consecutive elements are related. *)
Fixpoint chain (R : Node → Node → Prop) (l : list Node) : Prop :=
  match l with
  | x :: l' => match l' with y :: _ => R x y | [] => True end ∧ chain R l'
  | [] => True
  end.

(** No directed cycle: no node reaches itself along one or more edges. *)
Definition acyclic (graph : Graph) : Prop := ∀ n, ¬ tc (edge graph) n n.

(** [[n0, n1, ..., nk, n0]]: every consecutive pair an edge, and no node
    repeated but for the closing [n0]. *)
Definition elementary_cycle (graph : Graph) (c : Cycle) : Prop :=
  ∃ n0 l, c = n0 :: l ++ [n0] ∧ NoDup (n0 :: l) ∧ chain (edge graph) c.

(** The log of a sequence of complete calls: each call is [Enter n], the
    calls it makes, [Leave n]. *)
Inductive bracketed : list dfs_event → Prop :=
  | bracketed_nil : bracketed []
  | bracketed_call n inner after :
      bracketed inner → bracketed after →
      bracketed (Enter n :: inner ++ Leave n :: after).

Definition entered (log : list dfs_event) : list Node :=
  omap (λ e, match e with Enter n => Some n | Leave _ => None end) log.

(** [log] is the log of a run from [st] to [st']: complete calls, on
    pairwise different nodes that were unvisited in [st], and exactly the
    nodes that [st'] has visited in addition. *)
Definition log_for (st st' : dfs_state) (log : list dfs_event) : Prop :=
  bracketed log ∧ NoDup (entered log)
  ∧ (∀ n, n ∈ entered log → n ∉ visited st)
  ∧ visited st' = visited st ∪ list_to_set (entered log).

(** A node of the graph: a key, or the target of an edge. *)
Definition is_node (graph : Graph) (n : Node) : Prop :=
  n ∈ graph.*1 ∨ ∃ u, edge graph u n.

(** The three ways to write the cycle [A → B → C → A] as a list. *)
Definition rotations3 (A B C : Node) : list Cycle :=
  [[A; B; C; A]; [B; C; A; B]; [C; A; B; C]].

(** Invariant of the traversal state. *)
Record dfs_inv (graph : Graph) (st : dfs_state) : Prop := DfsInv {
  inv_nodup : NoDup (path st);
  inv_stack : ∀ n, n ∈ rec_stack st ↔ n ∈ path st;
  inv_visited : ∀ n, n ∈ path st → n ∈ visited st;
  inv_chain : chain (edge graph) (path st);
  inv_cycles : Forall (elementary_cycle graph) (cycles st);
  inv_closed : ∀ m t, m ∈ visited st → m ∉ rec_stack st →
                      edge graph m t → t ∈ visited st;
  inv_loops : ∀ m, m ∈ visited st → m ∉ rec_stack st →
                   edge graph m m → [m; m] ∈ cycles st;
  inv_nodes : ∀ n, n ∈ visited st → n ∈ graph_nodes graph
}.

(** What a call of [dfs], or a run of its loop, leaves behind: the
    invariant holds again, the path and the active set are as before, and
    [visited] and [cycles] have only grown. *)
Definition dfs_frame (graph : Graph) (st st' : dfs_state) : Prop :=
  dfs_inv graph st' ∧ path st' = path st ∧ rec_stack st' = rec_stack st
  ∧ visited st ⊆ visited st' ∧ cycles st `prefix_of` cycles st'.

(** Nodes of the graph not yet visited: the measure of the recursion. *)
Definition unvisited (graph : Graph) (st : dfs_state) : gset Node :=
  list_to_set (graph_nodes graph) ∖ visited st.

(** ** De-duplication of cycles (the loop of [main], lines 164-173) *)

(** [min(l, key=str)]: the first element whose key is smallest; Python
    replaces the running minimum only on a strict [<]. *)
Fixpoint py_min_from (best : Node) (l : list Node) : Node :=
  match l with
  | [] => best
  | x :: l' => py_min_from (if String.ltb x best then x else best) l'
  end.

Definition py_min (l : list Node) : result Node :=
  match l with
  | [] => Raise ValueError
  | x :: l' => Ok (py_min_from x l')
  end.

(** [l[i]] *)
Definition list_item (l : list Node) (i : nat) : result Node :=
  match l !! i with
  | Some x => Ok x
  | None => Raise IndexError
  end.

(** [normalized] of one [cycle]: rotated to start at its smallest element. *)
Definition normalize_cycle (cycle : Cycle) : result (list Node) :=
  smallest ← py_min (removelast cycle);
  min_idx ← list_index smallest cycle;
  closing ← list_item cycle min_idx;
  Ok (drop min_idx (removelast cycle) ++ take min_idx cycle ++ [closing]).

Definition dedup_step (acc : list Cycle * gset (list Node)) (cycle : Cycle)
  : result (list Cycle * gset (list Node)) :=
  let '(unique_cycles, seen) := acc in
  normalized ← normalize_cycle cycle;
  if decide (normalized ∉ seen)
  then Ok (unique_cycles ++ [cycle], {[normalized]} ∪ seen)
  else Ok (unique_cycles, seen).

Definition unique_cycles (cycles : list Cycle) : result (list Cycle) :=
  acc ← for_each dedup_step cycles ([], ∅);
  Ok acc.1.

(** [FindCycles] followed by [Normalize]. *)
Definition find_unique_cycles (graph : Graph) : result (list Cycle) :=
  cycles ← find_cycles graph;
  unique_cycles cycles.

(** ** Regular expressions ([re.finditer] on the patterns of the table)

    The fragment of Python's [re] that [IMPORT_PATTERNS] uses: single
    characters and character classes, [^] under [re.MULTILINE], sequencing,
    greedy and lazy repetition, and one capturing group.  Matching is the
    backtracking search of [re]: alternatives are tried in priority order and
    the first complete match wins.  Texts are taken as strings of 8-bit
    characters; the classes [\s] and [\w] are given on the ASCII range. *)

Inductive regex : Type :=
  | Chr (p : ascii → bool)
  | Bol
  | Eps
  | Seq (r1 r2 : regex)
  | Star (greedy : bool) (r : regex)
  | Group (r : regex).

(** A position in the text: offset, whether a line starts here, and the
    text from here on. *)
Record cursor : Type := Cursor {
  pos : nat;
  bol : bool;
  rest : string
}.

Definition newline : ascii := "010"%char.

Definition cursor_start (content : string) : cursor :=
  {| pos := 0; bol := true; rest := content |}.

Definition cursor_next (c : ascii) (s : string) (cur : cursor) : cursor :=
  {| pos := S (pos cur); bol := Ascii.eqb c newline; rest := s |}.

(** Repetition of [step] (the match of the repeated expression), at most
    [n] times; an iteration must consume text.  Greedy repetition tries one
    more iteration before the continuation, lazy repetition after it. *)
Fixpoint star_loop {R : Type}
    (step : cursor → option string → (cursor → option string → option R) → option R)
    (greedy : bool) (k : cursor → option string → option R)
    (n : nat) (cur : cursor) (grp : option string) {struct n} : option R :=
  match n with
  | 0 => k cur grp
  | S n' =>
      let more :=
        step cur grp
          (λ cur' grp',
             if pos cur <? pos cur' then star_loop step greedy k n' cur' grp'
             else None) in
      if greedy
      then match more with Some x => Some x | None => k cur grp end
      else match k cur grp with Some x => Some x | None => more end
  end.

Fixpoint rmatch {R : Type} (r : regex) (cur : cursor) (grp : option string)
    (k : cursor → option string → option R) {struct r} : option R :=
  match r with
  | Chr p =>
      match rest cur with
      | String c s => if p c then k (cursor_next c s cur) grp else None
      | EmptyString => None
      end
  | Bol => if bol cur then k cur grp else None
  | Eps => k cur grp
  | Seq r1 r2 => rmatch r1 cur grp (λ cur' grp', rmatch r2 cur' grp' k)
  | Star greedy r1 =>
      star_loop (rmatch r1) greedy k (String.length (rest cur)) cur grp
  | Group r1 =>
      rmatch r1 cur grp
        (λ cur' _,
           k cur' (Some (substring 0 (pos cur' - pos cur) (rest cur))))
  end.

(** A match object: [m.start()], [m.end()], [m.group(1)]. *)
Record re_match : Type := ReMatch {
  m_start : nat;
  m_end : nat;
  m_group1 : string
}.

Definition match_at (r : regex) (cur : cursor) : option (cursor * option string) :=
  rmatch r cur None (λ cur' grp, Some (cur', grp)).

(** Leftmost match at or after the position [(p, b, s)]. *)
Fixpoint search (r : regex) (p : nat) (b : bool) (s : string)
  : option (nat * (cursor * option string)) :=
  match match_at r {| pos := p; bol := b; rest := s |} with
  | Some found => Some (p, found)
  | None =>
      match s with
      | EmptyString => None
      | String c s' => search r (S p) (Ascii.eqb c newline) s'
      end
  end.

(** Successive non-overlapping matches, left to right.  After an empty
    match the scan moves on by one character (no pattern of the table
    matches the empty string). *)
Fixpoint finditer_from (fuel : nat) (r : regex) (cur : cursor) : list re_match :=
  match fuel with
  | 0 => []
  | S fuel' =>
      match search r (pos cur) (bol cur) (rest cur) with
      | None => []
      | Some (start, (cur', grp)) =>
          {| m_start := start; m_end := pos cur'; m_group1 := default "" grp |}
          :: (if start <? pos cur' then finditer_from fuel' r cur'
              else match rest cur' with
                   | EmptyString => []
                   | String c s => finditer_from fuel' r (cursor_next c s cur')
                   end)
      end
  end.

(** [re.finditer(pattern, content, re.MULTILINE)] *)
Definition finditer (pattern : regex) (content : string) : list re_match :=
  finditer_from (S (String.length content)) pattern (cursor_start content).

(** ** Import extraction *)

Definition Path : Type := string.

(** [\s] *)
Definition is_space (c : ascii) : bool :=
  let n := nat_of_ascii c in
  ((9 <=? n) && (n <=? 13) || (28 <=? n) && (n <=? 32))%nat.

(** [\w] *)
Definition is_word (c : ascii) : bool :=
  let n := nat_of_ascii c in
  ((48 <=? n) && (n <=? 57) || (65 <=? n) && (n <=? 90)
   || (97 <=? n) && (n <=? 122) || (n =? 95))%nat.

(** The class of the two quote characters (single quote, code 39, and
    double quote, code 34), and its complement. *)
Definition is_quote (c : ascii) : bool :=
  Ascii.eqb c "039"%char || Ascii.eqb c "034"%char.

Definition lit_char (c : ascii) : regex := Chr (Ascii.eqb c).

Fixpoint lit (s : string) : regex :=
  match s with
  | EmptyString => Eps
  | String c s' => Seq (lit_char c) (lit s')
  end.

Definition plus (r : regex) : regex := Seq r (Star true r).
Definition spaces1 : regex := plus (Chr is_space).
Definition spaces0 : regex := Star true (Chr is_space).
Definition dot : regex := Chr (λ c, negb (Ascii.eqb c newline)).
Definition quote : regex := Chr is_quote.
Definition quoted_target : regex :=
  Seq quote (Seq (Group (plus (Chr (λ c, negb (is_quote c))))) quote).

(** With Q standing for the class of the two quote characters:
    [import\s+.*?\s+from\s+Q([^Q]+)Q] and the same with [export] *)
Definition re_from (keyword : string) : regex :=
  Seq (lit keyword)
    (Seq spaces1 (Seq (Star false dot) (Seq spaces1
      (Seq (lit "from") (Seq spaces1 quoted_target))))).

(** [import\s*\(Q([^Q]+)Q\)] and the same with [require] *)
Definition re_call (keyword : string) : regex :=
  Seq (lit keyword)
    (Seq spaces0 (Seq (lit "(") (Seq quoted_target (lit ")")))).

Definition module_name : regex :=
  Group (plus (Chr (λ c, is_word c || Ascii.eqb c "."%char))).

(** [^from\s+([\w.]+)\s+import] *)
Definition re_py_from : regex :=
  Seq Bol (Seq (lit "from") (Seq spaces1 (Seq module_name
    (Seq spaces1 (lit "import"))))).

(** [^import\s+([\w.]+)] *)
Definition re_py_import : regex :=
  Seq Bol (Seq (lit "import") (Seq spaces1 module_name)).

Definition IMPORT_PATTERNS : list (string * list regex) :=
  [ ("ts", [re_from "import"; re_call "import"; re_call "require";
            re_from "export"]);
    ("js", [re_from "import"; re_call "import"; re_call "require";
            re_from "export"]);
    ("py", [re_py_from; re_py_import]) ].

(** The statements of the [try] block, run on the list [imports] as it
    stands: the list afterwards, and how the block ended. *)
Definition extract_try (read_text : Path → result string) (file_path : Path)
    (patterns : list regex) (imports : list string)
  : list string * result unit :=
  match read_text file_path with
  | Raise e => (imports, Raise e)
  | Ok content =>
      (foldl
         (λ imports pattern,
            foldl (λ imports m, imports ++ [m_group1 m])
              imports (finditer pattern content))
         imports patterns,
       Ok ())
  end.

(** Every exception of [exn] derives from Python's [Exception]. *)
Definition is_Exception (e : exn) : bool := true.

Definition extract_imports (read_text : Path → result string)
    (file_path : Path) (lang : string) : result (list string) :=
  let imports := [] in
  let patterns := default [] (dict_get IMPORT_PATTERNS lang) in
  let '(imports, outcome) := extract_try read_text file_path patterns imports in
  match outcome with
  | Ok _ => Ok imports
  | Raise e => if is_Exception e then Ok imports else Raise e
  end.

(** ** Import resolution and graph construction

    The file system and [pathlib] are parameters: [parent], [joinpath]
    (the [/] operator), [resolve], the constructor [Path(...)] applied to a
    string, [exists], [is_file], [parts], [suffix], [rglob] and
    [read_text].  [resolve] and [read_text] may raise. *)

(** [s.startswith(p)] *)
Definition startswith (s p : string) : bool := String.prefix p s.

(** [s[n:]] *)
Definition str_from (n : nat) (s : string) : string :=
  substring n (String.length s - n) s.

(** [s.add(x)] on a set kept as the list of its elements. *)
Definition set_add (x : Node) (s : list Node) : list Node :=
  if decide (x ∈ s) then s else s ++ [x].

(** [graph[k].add(v)] on a [defaultdict(set)]: a missing key is created. *)
Fixpoint graph_add (graph : Graph) (k v : Node) : Graph :=
  match graph with
  | [] => [(k, [v])]
  | (k', s) :: graph' =>
      if decide (k' = k) then (k', set_add v s) :: graph'
      else (k', s) :: graph_add graph' k v
  end.

Section FileSystem.
Variable parent : Path → Path.
Variable joinpath : Path → string → Path.
Variable resolve : Path → result Path.
Variable path_of_str : string → Path.
Variable path_exists : Path → bool.
Variable is_file : Path → bool.
Variable parts : Path → list string.
Variable suffix : Path → string.
Variable rglob : Path → string → list Path.
Variable read_text : Path → result string.

(** The suffixes tried by [resolve_import], in order. *)
Definition resolve_suffixes : list string :=
  [""; ".ts"; ".tsx"; ".js"; ".jsx"; "/index.ts"; "/index.tsx"; "/index.js"].

(** The loop [for ext in [...]] with its early [return candidate]. *)
Fixpoint try_suffixes (resolved : Path) (exts : list string) : option Path :=
  match exts with
  | [] => None
  | ext :: exts' =>
      let candidate := path_of_str (resolved +:+ ext) in
      if path_exists candidate && is_file candidate then Some candidate
      else try_suffixes resolved exts'
  end.

Definition resolve_import (import_path : string) (from_file project_root : Path)
  : result (option Path) :=
  if negb (startswith import_path ".") && negb (startswith import_path "@/")
  then Ok None
  else
    let from_dir := parent from_file in
    if startswith import_path "." then
      resolved ← resolve (joinpath from_dir import_path);
      Ok (try_suffixes resolved resolve_suffixes)
    else if startswith import_path "@/" then
      resolved ← resolve (joinpath (joinpath project_root "src")
                            (str_from 2 import_path));
      Ok (try_suffixes resolved resolve_suffixes)
    else Ok None.

(** [find_files(path, extensions)] *)
Definition find_files (path : Path) (extensions : list string) : list Path :=
  flat_map (λ ext, rglob path ("*." +:+ ext)) extensions.

Definition skipped_dirs : list string :=
  ["node_modules"; "__pycache__"; ".git"; "dist"; "build"].

Definition lang_map : list (string * string) :=
  [("ts", "ts"); ("tsx", "ts"); ("js", "js"); ("jsx", "js"); ("py", "py")].

(** The body of [for imp in imports]. *)
Definition add_import (path file_path : Path) (graph : Graph) (imp : string)
  : result Graph :=
  resolved ← resolve_import imp file_path path;
  match resolved with
  | Some resolved => Ok (graph_add graph file_path resolved)
  | None => Ok graph
  end.

(** The body of [for file_path in find_files(path, extensions)]. *)
Definition scan_file (path : Path) (graph : Graph) (file_path : Path)
  : result Graph :=
  if existsb (λ p, bool_decide (p ∈ parts file_path)) skipped_dirs
  then Ok graph
  else
    let ext := str_from 1 (suffix file_path) in
    let lang := default "js" (dict_get lang_map ext) in
    imports ← extract_imports read_text file_path lang;
    for_each (add_import path file_path) imports graph.

Definition build_dependency_graph (path : Path) (extensions : list string)
  : result Graph :=
  for_each (scan_file path) (find_files path extensions) [].

End FileSystem.

(** [len(graph)], which [main] prints as "Analyzed ... files" and returns
    as [total_files]. *)
Definition total_files (graph : Graph) : nat := length graph.

(** *** A concrete file system for examples

    Regular files with absolute POSIX paths and their text; directories are
    the ancestors of files; there are no symbolic links, so [resolve] only
    collapses [.] and [..]. *)
Module ToyFS.

Definition files : Type := list (Path * string).

Fixpoint split_slash (s cur : string) : list string :=
  match s with
  | EmptyString => [cur]
  | String c s' =>
      if Ascii.eqb c "/"%char then cur :: split_slash s' ""
      else split_slash s' (cur +:+ String c "")
  end.

Definition components (p : Path) : list string :=
  filter (λ c, c ≠ "") (split_slash p "").

Definition of_components (cs : list string) : Path :=
  "/" +:+ String.concat "/" cs.

Definition parent (p : Path) : Path := of_components (removelast (components p)).

Definition joinpath (p : Path) (s : string) : Path :=
  if startswith s "/" then s else p +:+ "/" +:+ s.

Fixpoint collapse (cs acc : list string) : list string :=
  match cs with
  | [] => acc
  | c :: cs' =>
      if decide (c = ".") then collapse cs' acc
      else if decide (c = "..") then collapse cs' (removelast acc)
      else collapse cs' (acc ++ [c])
  end.

Definition resolve (p : Path) : result Path :=
  Ok (of_components (collapse (components p) [])).

Definition path_of_str (s : string) : Path := s.

Definition is_file (fs : files) (p : Path) : bool := bool_decide (p ∈ fs.*1).

Definition path_exists (fs : files) (p : Path) : bool :=
  existsb (λ f, bool_decide (components p `prefix_of` components f)) fs.*1.

Definition parts (p : Path) : list string := "/" :: components p.

Fixpoint from_last_dot (s : string) : option string :=
  match s with
  | EmptyString => None
  | String c s' =>
      match from_last_dot s' with
      | Some x => Some x
      | None => if Ascii.eqb c "."%char then Some s else None
      end
  end.

Definition name (p : Path) : string := List.last (components p) "".

Definition suffix (p : Path) : string :=
  match from_last_dot (name p) with
  | Some x => if decide (x = name p ∨ x = ".") then "" else x
  | None => ""
  end.

Definition endswith (s e : string) : bool :=
  bool_decide (str_from (String.length s - String.length e) s = e).

(** [rglob] with a pattern of the form [*.ext]. *)
Definition rglob (fs : files) (root : Path) (pattern : string) : list Path :=
  filter (λ f, components root `prefix_of` components f
               ∧ endswith (name f) (str_from 1 pattern) = true) fs.*1.

Definition read_text (fs : files) (p : Path) : result string :=
  match dict_get fs p with
  | Some content => Ok content
  | None => Raise OSError
  end.

Definition resolve_import (fs : files) : string → Path → Path → result (option Path) :=
  resolve_import parent joinpath resolve path_of_str (path_exists fs) (is_file fs).

Definition build_dependency_graph (fs : files) : Path → list string → result Graph :=
  build_dependency_graph parent joinpath resolve path_of_str
    (path_exists fs) (is_file fs) parts suffix (rglob fs) (read_text fs).

End ToyFS.

(** Example projects. *)
Definition sample_ts : string :=
  "const a = require('./a')" +:+ String newline "import b from './b'".

Definition project3 : ToyFS.files :=
  [("/p/src/a.ts",
    "import b from './b'" +:+ String newline "import React from 'react'");
   ("/p/src/b.ts", "import {c} from './lib/c'");
   ("/p/src/lib/c.ts", "import a from '../a'; import x from '@/lib/index'");
   ("/p/src/lib/index.js", "");
   ("/p/node_modules/z/z.ts", "import y from './y'");
   ("/p/node_modules/z/y.ts", "")].

Definition project1 : ToyFS.files :=
  [("/p/a.ts", "import React from 'react'")].

(** ** Vocabulary for the statements on extraction and resolution *)

(** The table entry of an ecosystem: [IMPORT_PATTERNS.get(lang, [])]. *)
Definition patterns_of (lang : string) : list regex :=
  default [] (dict_get IMPORT_PATTERNS lang).

(** Every match of every pattern of the ecosystem: pattern by pattern in
    the order of the table, and for one pattern as [finditer] yields them. *)
Definition all_matches (content lang : string) : list re_match :=
  flat_map (λ pattern, finditer pattern content) (patterns_of lang).

Fixpoint insert_by_start (m : re_match) (l : list re_match) : list re_match :=
  match l with
  | [] => [m]
  | x :: l' =>
      if m_start m <=? m_start x then m :: l else x :: insert_by_start m l'
  end.

Definition sort_by_start (l : list re_match) : list re_match :=
  foldr insert_by_start [] l.

(** The import targets in their encounter order in the text, as the
    specification words it: all matches, ordered by where they start. *)
Definition imports_in_text_order (content lang : string) : list string :=
  m_group1 <$> sort_by_start (all_matches content lang).

(** Strictly increasing offsets. *)
Fixpoint increasing (l : list nat) : Prop :=
  match l with
  | x :: l' => match l' with y :: _ => x < y | [] => True end ∧ increasing l'
  | [] => True
  end.

Section ResolverVocabulary.
Variable parent : Path → Path.
Variable joinpath : Path → string → Path.
Variable path_of_str : string → Path.
Variable path_exists : Path → bool.
Variable is_file : Path → bool.

(** The path handed to [resolve] for a relative or aliased import. *)
Definition import_base (import_path : string) (from_file project_root : Path)
  : Path :=
  if startswith import_path "." then joinpath (parent from_file) import_path
  else joinpath (joinpath project_root "src") (str_from 2 import_path).

(** The candidate for one suffix, and whether it is accepted. *)
Definition candidate (resolved : Path) (ext : string) : Path :=
  path_of_str (resolved +:+ ext).

Definition regular_file (p : Path) : bool := path_exists p && is_file p.

(** [c] is the first accepted candidate along [exts]. *)
Definition first_regular (resolved : Path) (exts : list string) (c : Path)
  : Prop :=
  ∃ before ext after,
    exts = before ++ ext :: after
    ∧ c = candidate resolved ext
    ∧ regular_file c = true
    ∧ Forall (λ e, regular_file (candidate resolved e) = false) before.

Definition none_regular (resolved : Path) (exts : list string) : Prop :=
  Forall (λ e, regular_file (candidate resolved e) = false) exts.
End ResolverVocabulary.

(** ** Vocabulary for further results on the traversal *)

(** A node that [dfs] has left: visited and no longer active. *)
Definition finished (st : dfs_state) (n : Node) : Prop :=
  n ∈ visited st ∧ n ∉ rec_stack st.

(** As long as no cycle has been recorded, the finished nodes are closed
    under edges and none of them lies on a directed cycle. *)
Definition no_cycle_inv (graph : Graph) (st : dfs_state) : Prop :=
  cycles st = [] →
  (∀ m t, finished st m → edge graph m t → finished st t)
  ∧ (∀ m, finished st m → ¬ tc (edge graph) m m).

(** ** Vocabulary for further results on the de-duplication *)

(** The same closed walk read from another starting point. *)
Definition rotation (l k : list Node) : Prop :=
  ∃ a b, l = a ++ b ∧ k = b ++ a.

(** [sys.exit(1 if unique_cycles else 0)] *)
Definition exit_status (unique : list Cycle) : nat :=
  match unique with
  | [] => 0
  | _ :: _ => 1
  end.

(** What [main] does with a built graph up to its exit status: find the
    cycles, de-duplicate them, and exit with the status above. *)
Definition main_status (graph : Graph) : result nat :=
  unique ← find_unique_cycles graph;
  Ok (exit_status unique).

(** ** Vocabulary for further results on the graph builder *)

(** A dictionary of non-empty sets: no key twice, no element twice. *)
Definition graph_wf (graph : Graph) : Prop :=
  NoDup graph.*1 ∧ Forall (λ kv, NoDup kv.2 ∧ kv.2 ≠ []) graph.

Section BuilderVocabulary.
Variable parent : Path → Path.
Variable joinpath : Path → string → Path.
Variable resolve : Path → result Path.
Variable path_of_str : string → Path.
Variable path_exists : Path → bool.
Variable is_file : Path → bool.
Variable parts : Path → list string.
Variable suffix : Path → string.
Variable rglob : Path → string → list Path.
Variable read_text : Path → result string.

(** The test that makes the builder skip a file. *)
Definition skipped (file_path : Path) : bool :=
  existsb (λ p, bool_decide (p ∈ parts file_path)) skipped_dirs.

(** The ecosystem tag the builder derives from the file name. *)
Definition lang_of (file_path : Path) : string :=
  default "js" (dict_get lang_map (str_from 1 (suffix file_path))).

(** A file the builder scans: found under the root and not skipped. *)
Definition scanned (path : Path) (extensions : list string) (a : Path) : Prop :=
  a ∈ find_files rglob path extensions ∧ skipped a = false.

(** Some import extracted from [a] resolves to [b]. *)
Definition import_edge (path a b : Path) : Prop :=
  ∃ imports imp,
    extract_imports read_text a (lang_of a) = Ok imports
    ∧ imp ∈ imports
    ∧ resolve_import parent joinpath resolve path_of_str path_exists is_file
        imp a path = Ok (Some b).
End BuilderVocabulary.

(** The example project [project3] seen through the vocabulary above. *)
Definition graph3 : Graph :=
  [("/p/src/a.ts", ["/p/src/b.ts"]);
   ("/p/src/b.ts", ["/p/src/lib/c.ts"]);
   ("/p/src/lib/c.ts", ["/p/src/a.ts"; "/p/src/lib/index.js"])].

Definition scanned3 : Path → Prop :=
  scanned ToyFS.parts (ToyFS.rglob project3) "/p" ["ts"; "js"].

Definition import_edge3 : Path → Path → Prop :=
  import_edge ToyFS.parent ToyFS.joinpath ToyFS.resolve ToyFS.path_of_str
    (ToyFS.path_exists project3) (ToyFS.is_file project3) ToyFS.suffix
    (ToyFS.read_text project3) "/p".

(** A resolver whose [resolve] fails on every path, as on a file system
    where canonicalisation cannot finish. *)
Definition resolve_fails (p : Path) : result Path := Raise OSError.

(** ** Vocabulary for further results on extraction *)

(** Every character of [s] satisfies [p]. *)
Fixpoint str_all (p : ascii → bool) (s : string) : bool :=
  match s with
  | EmptyString => true
  | String c s' => p c && str_all p s'
  end.

(** A match of [r] hands the captured group on unchanged. *)
Definition keeps_group (r : regex) : Prop :=
  ∀ (R : Type) cur grp (k : cursor → option string → option R) x,
    rmatch r cur grp k = Some x → ∃ cur', k cur' grp = Some x.

(** A match of [r] captures a group that satisfies [P]. *)
Definition sets_group (P : string → Prop) (r : regex) : Prop :=
  ∀ (R : Type) cur grp (k : cursor → option string → option R) x,
    rmatch r cur grp k = Some x → ∃ cur' s, P s ∧ k cur' (Some s) = Some x.

(** The characters an extracted target can consist of: for Python the
    class [[\w.]], otherwise anything but the two quote characters. *)
Definition target_char (lang : string) (c : ascii) : bool :=
  if decide (lang = "py") then is_word c || Ascii.eqb c "."%char
  else negb (is_quote c).

Definition target_ok (p : ascii → bool) (s : string) : Prop :=
  s ≠ "" ∧ str_all p s = true.

(** * Proofs *)

(** ** The [result] monad and loops *)

Lemma bind_Ok {A B : Type} (m : result A) (f : A → result B) (b : B) :
  m ≫= f = Ok b ↔ ∃ a, m = Ok a ∧ f a = Ok b.
Proof.
  destruct m as [a|e]; simpl; split.
  - intros H. by exists a.
  - by intros (a' & [= <-] & H).
  - intros [=].
  - by intros (a' & [=] & _).
Qed.

Lemma for_each_cons {A S : Type} (body : S → A → result S) (x : A) (l : list A) (s : S) :
  for_each body (x :: l) s = body s x ≫= for_each body l.
Proof. done. Qed.

Lemma for_each_app {A S : Type} (body : S → A → result S) (l1 l2 : list A) (s : S) :
  for_each body (l1 ++ l2) s = for_each body l1 s ≫= for_each body l2.
Proof.
  revert s. induction l1 as [|x l1 IH]; intros s; simpl; [done|].
  destruct (body s x) as [s'|e]; simpl; [apply IH | done].
Qed.

(** ** Lists: [index], slices, chains *)

Lemma list_index_elem (x : Node) (l : list Node) :
  x ∈ l → ∃ i, list_index x l = Ok i ∧ l !! i = Some x.
Proof.
  induction l as [|y l IH]; [by intros ?%elem_of_nil|].
  intros Hin. simpl. destruct (decide (y = x)) as [->|Hne].
  - by exists 0.
  - apply elem_of_cons in Hin as [->|Hin]; [done|].
    destruct (IH Hin) as (i & -> & Hi). by exists (S i).
Qed.

Lemma list_index_last (x : Node) (p : list Node) :
  x ∉ p → list_index x (p ++ [x]) = Ok (length p).
Proof.
  induction p as [|y p IH]; intros Hx; simpl.
  - by rewrite decide_True.
  - rewrite decide_False by set_solver. rewrite IH by set_solver. done.
Qed.

Lemma chain_snoc (R : Node → Node → Prop) (l : list Node) (n : Node) :
  chain R l → (∀ x, last l = Some x → R x n) → chain R (l ++ [n]).
Proof.
  induction l as [|x l IH]; simpl; [done|].
  intros [Hx Hl] Hlast. split.
  - destruct l as [|y l]; simpl; [by apply Hlast | done].
  - apply IH; [done|]. intros z Hz. apply Hlast.
    destruct l; [done | by rewrite last_cons, Hz].
Qed.

Lemma chain_drop (R : Node → Node → Prop) (l : list Node) (k : nat) :
  chain R l → chain R (drop k l).
Proof.
  revert l. induction k as [|k IH]; intros [|x l]; simpl; try done.
  intros [_ Hl]. by apply IH.
Qed.

Lemma chain_tc (R : Node → Node → Prop) (x : Node) (l : list Node) (y : Node) :
  chain R (x :: l ++ [y]) → tc R x y.
Proof.
  revert x. induction l as [|z l IH]; intros x; simpl.
  - intros [Hxy _]. by apply tc_once.
  - intros [Hxz Hl]. eapply tc_l; [done|]. by apply IH.
Qed.

(** ** Graph facts *)

Lemma elem_of_concat {A : Type} (x : A) (ls : list (list A)) :
  x ∈ concat ls ↔ ∃ l, l ∈ ls ∧ x ∈ l.
Proof.
  rewrite list_elem_of_In, in_concat. split; intros (l & H1 & H2); exists l.
  - by rewrite !list_elem_of_In.
  - by rewrite <- !list_elem_of_In.
Qed.

Lemma dict_get_Some {V : Type} (d : list (Node * V)) (k : Node) (v : V) :
  dict_get d k = Some v → (k, v) ∈ d.
Proof.
  induction d as [|[k' v'] d IH]; simpl; [done|].
  destruct (decide (k' = k)) as [->|Hne].
  - intros [= ->]. apply elem_of_cons. by left.
  - intros H. apply elem_of_cons. right. by apply IH.
Qed.

Lemma edge_entry (graph : Graph) (u v : Node) :
  edge graph u v → ∃ s, (u, s) ∈ graph ∧ v ∈ s.
Proof.
  unfold edge, graph_get. destruct (dict_get graph u) as [s|] eqn:Hs; simpl.
  - intros Hv. exists s. split; [by apply dict_get_Some | done].
  - by intros ?%elem_of_nil.
Qed.

Lemma edge_source_key (graph : Graph) (u v : Node) :
  edge graph u v → u ∈ graph.*1.
Proof.
  intros (s & Hs & _)%edge_entry. apply list_elem_of_fmap. by exists (u, s).
Qed.

Lemma key_graph_nodes (graph : Graph) (k : Node) :
  k ∈ graph.*1 → k ∈ graph_nodes graph.
Proof. intros H. unfold graph_nodes. apply elem_of_app. by left. Qed.

Lemma edge_target_node (graph : Graph) (u v : Node) :
  edge graph u v → v ∈ graph_nodes graph.
Proof.
  intros (s & Hs & Hv)%edge_entry. unfold graph_nodes.
  apply elem_of_app. right. apply elem_of_concat. exists s. split; [|done].
  apply list_elem_of_fmap. by exists (u, s).
Qed.

(** ** The measure *)

Lemma size_list_to_set_le (l : list Node) :
  size (list_to_set l : gset Node) ≤ length l.
Proof.
  induction l as [|x l IH].
  - rewrite list_to_set_nil, size_empty. done.
  - rewrite list_to_set_cons, size_union_alt, size_singleton. simpl.
    assert (size (list_to_set l ∖ {[x]} : gset Node) ≤ size (list_to_set l : gset Node))
      by (apply subseteq_size; set_solver).
    lia.
Qed.

Lemma unvisited_bound (graph : Graph) (st : dfs_state) :
  size (unvisited graph st) ≤ length (graph_nodes graph).
Proof.
  etrans; [|apply size_list_to_set_le].
  apply subseteq_size. unfold unvisited. set_solver.
Qed.

Lemma unvisited_mono (graph : Graph) (st st' : dfs_state) :
  visited st ⊆ visited st' →
  size (unvisited graph st') ≤ size (unvisited graph st).
Proof. intros H. apply subseteq_size. unfold unvisited. set_solver. Qed.

Lemma unvisited_enter (graph : Graph) (node : Node) (st : dfs_state) :
  node ∈ graph_nodes graph → node ∉ visited st →
  size (unvisited graph (dfs_enter node st)) < size (unvisited graph st).
Proof.
  intros Hn Hv. apply subset_size. unfold unvisited, dfs_enter; simpl.
  assert (node ∈ (list_to_set (graph_nodes graph) : gset Node))
    by (by apply elem_of_list_to_set).
  split; [set_solver|]. intros Hsub. specialize (Hsub node). set_solver.
Qed.

(** ** The traversal keeps its invariant and ends *)

Section DfsCorrect.
Variable graph : Graph.

Lemma dfs_frame_refl (st : dfs_state) : dfs_inv graph st → dfs_frame graph st st.
Proof. intros H. unfold dfs_frame. split_and!; try done; reflexivity. Qed.

Lemma dfs_frame_trans (st1 st2 st3 : dfs_state) :
  dfs_frame graph st1 st2 → dfs_frame graph st2 st3 → dfs_frame graph st1 st3.
Proof.
  intros (_ & Hp1 & Hr1 & Hv1 & Hc1) (Hi & Hp2 & Hr2 & Hv2 & Hc2).
  split; [done|]. split; [congruence|]. split; [congruence|].
  split; [set_solver | by etrans].
Qed.

Lemma dfs_init_inv : dfs_inv graph dfs_init.
Proof.
  split; simpl; try done.
  - constructor.
  - intros n. split; [by intros ?%not_elem_of_empty | by intros ?%elem_of_nil].
  - by intros n ?%elem_of_nil.
Qed.

Lemma dfs_enter_inv (node : Node) (st : dfs_state) :
  dfs_inv graph st → node ∉ visited st → node ∈ graph_nodes graph →
  (∀ x, last (path st) = Some x → edge graph x node) →
  dfs_inv graph (dfs_enter node st).
Proof.
  intros [] Hnew Hnode Hlast. split; simpl.
  - apply NoDup_app. split; [done|]. split; [|apply NoDup_singleton].
    intros x Hx ->%list_elem_of_singleton. by apply Hnew, inv_visited0.
  - intros n. rewrite elem_of_app, list_elem_of_singleton, <- inv_stack0. set_solver.
  - intros n [? | ->%list_elem_of_singleton]%elem_of_app; set_solver.
  - by apply chain_snoc.
  - done.
  - intros m t Hm Hr He. apply elem_of_union. right.
    apply (inv_closed0 m); [set_solver | set_solver | done].
  - intros m Hm Hr He. apply inv_loops0; [set_solver | set_solver | done].
  - intros n [->%elem_of_singleton | ?]%elem_of_union; [done | by apply inv_nodes0].
Qed.

Lemma record_cycle_spec (p : list Node) (node t : Node) (st : dfs_state) :
  dfs_inv graph st → path st = p ++ [node] → edge graph node t →
  t ∈ rec_stack st →
  ∃ st', record_cycle t st = Ok st' ∧ dfs_frame graph st st'
         ∧ visited st' = visited st
         ∧ (t = node → [node; node] ∈ cycles st').
Proof.
  intros Hinv Hp He Ht. pose proof Hinv as [].
  apply inv_stack0 in Ht.
  destruct (list_index_elem t (path st) Ht) as (i & Hidx & Hi).
  unfold record_cycle. rewrite Hidx. simpl. eexists. split; [done|].
  assert (Hdrop : drop i (path st) = t :: drop (S i) (path st))
    by (by apply drop_S).
  assert (Hle : i ≤ length p).
  { apply lookup_lt_Some in Hi. rewrite Hp, length_app in Hi. simpl in Hi. lia. }
  assert (Hel : elementary_cycle graph (drop i (path st) ++ [t])).
  { exists t, (drop (S i) (path st)). split; [by rewrite Hdrop|]. split.
    - rewrite <- Hdrop. rewrite <- (take_drop i (path st)) in inv_nodup0.
      by apply NoDup_app in inv_nodup0 as (_ & _ & ?).
    - apply chain_snoc; [by apply chain_drop|].
      intros x. rewrite Hp, drop_app_le, last_snoc by done. by intros [= <-]. }
  split; [|split; [done|]].
  - split; [|by repeat split; simpl; try done; apply prefix_app_r].
    split; simpl; try done.
    + apply Forall_app. split; [done | by apply Forall_singleton].
    + intros m Hm Hr Hmm. apply elem_of_app. left. by apply inv_loops0.
  - intros ->. simpl. apply elem_of_app. right. apply list_elem_of_singleton.
    rewrite Hp in Hidx, inv_nodup0.
    rewrite list_index_last in Hidx.
    + injection Hidx as <-. rewrite Hp, drop_app_length. done.
    + apply NoDup_app in inv_nodup0 as (_ & Hd & _). intros Hn.
      apply (Hd node Hn), list_elem_of_singleton. done.
Qed.

Lemma list_pop_snoc (l : list Node) (x : Node) : list_pop (l ++ [x]) = Ok l.
Proof.
  unfold list_pop. rewrite removelast_last. by destruct l.
Qed.

(** The neighbour loop of [dfs(node)], for any [rec] that behaves as a
    call of [dfs] should. *)
Lemma dfs_loop_spec (rec : Node → dfs_state → result dfs_state)
    (fuel : nat) (node : Node) (p : list Node) :
  (∀ t st, dfs_inv graph st → t ∉ visited st → t ∈ graph_nodes graph →
           (∀ x, last (path st) = Some x → edge graph x t) →
           size (unvisited graph st) < fuel →
           ∃ st', rec t st = Ok st' ∧ dfs_frame graph st st' ∧ t ∈ visited st') →
  ∀ ns st, dfs_inv graph st → path st = p ++ [node] →
           (∀ t, t ∈ ns → edge graph node t) →
           size (unvisited graph st) < fuel →
           ∃ st', for_each (dfs_visit rec) ns st = Ok st'
                  ∧ dfs_frame graph st st'
                  ∧ (∀ t, t ∈ ns → t ∈ visited st')
                  ∧ (node ∈ ns → [node; node] ∈ cycles st').
Proof.
  intros Hrec ns. induction ns as [|t ns IH]; intros st Hinv Hp Hedges Hfuel.
  - exists st. split; [done|]. split; [by apply dfs_frame_refl|].
    split; [by intros ? ?%elem_of_nil | by intros ?%elem_of_nil].
  - assert (Het : edge graph node t) by (apply Hedges; left).
    assert (Hstep : ∃ st1, dfs_visit rec st t = Ok st1 ∧ dfs_frame graph st st1
                           ∧ t ∈ visited st1
                           ∧ (t = node → [node; node] ∈ cycles st1)).
    { unfold dfs_visit. destruct (decide (t ∉ visited st)) as [Hnew|Hold].
      - destruct (Hrec t st) as (st1 & Hr & Hf & Hv); try done.
        + by eapply edge_target_node.
        + intros x. rewrite Hp, last_snoc. by intros [= <-].
        + exists st1. split_and!; try done. intros ->. exfalso.
          apply Hnew, (inv_visited _ _ Hinv). rewrite Hp. set_solver.
      - apply dec_stable in Hold.
        destruct (decide (t ∈ rec_stack st)) as [Hact|Hdone].
        + destruct (record_cycle_spec p node t st) as (st1 & Hr & Hf & Hv & Hl);
            try done.
          exists st1. split_and!; try done. by rewrite Hv.
        + exists st. split_and!; try done.
          intros ->. exfalso. apply Hdone, (inv_stack _ _ Hinv).
          rewrite Hp. set_solver. }
    destruct Hstep as (st1 & Hs & Hf1 & Hv1 & Hl1).
    pose proof Hf1 as (Hinv1 & Hp1 & Hr1 & Hsub1 & Hc1).
    destruct (IH st1) as (st2 & Hrest & Hf2 & Hv2 & Hl2); try done.
    + congruence.
    + intros t' Ht'. apply Hedges. by right.
    + eapply Nat.le_lt_trans; [by apply unvisited_mono | done].
    + pose proof Hf2 as (Hinv2 & Hp2 & Hr2 & Hsub2 & Hc2).
      exists st2. simpl. rewrite Hs. simpl. split; [done|].
      split; [by eapply dfs_frame_trans|]. split.
      * intros t' [->|Ht']%elem_of_cons; [set_solver | by apply Hv2].
      * intros [->|Hn]%elem_of_cons; [|by apply Hl2].
        eapply elem_of_prefix; [by apply Hl1 | done].
Qed.

Theorem dfs_spec (fuel : nat) (node : Node) (st : dfs_state) :
  dfs_inv graph st → node ∉ visited st → node ∈ graph_nodes graph →
  (∀ x, last (path st) = Some x → edge graph x node) →
  size (unvisited graph st) < fuel →
  ∃ st', dfs fuel graph node st = Ok st' ∧ dfs_frame graph st st'
         ∧ node ∈ visited st'.
Proof.
  revert node st. induction fuel as [|fuel IH];
    intros node st Hinv Hnew Hnode Hlast Hfuel; [lia|].
  pose proof (dfs_enter_inv node st Hinv Hnew Hnode Hlast) as Hinv1.
  destruct (dfs_loop_spec (dfs fuel graph) fuel node (path st) IH
              (graph_get graph node) (dfs_enter node st))
    as (st2 & Hloop & (Hinv2 & Hp2 & Hr2 & Hsub2 & Hc2) & Hv2 & Hl2);
    try done.
  { pose proof (unvisited_enter graph node st Hnode Hnew). lia. }
  simpl in Hp2, Hr2, Hsub2, Hc2.
  assert (Hnp : node ∉ path st) by (intros ?; by apply Hnew, (inv_visited _ _ Hinv)).
  assert (Hnr : node ∉ rec_stack st) by (by rewrite (inv_stack _ _ Hinv)).
  simpl. rewrite Hloop. simpl. unfold dfs_leave.
  rewrite Hp2, list_pop_snoc. simpl. unfold set_remove.
  rewrite decide_True by (rewrite Hr2; set_solver). simpl.
  eexists. split; [done|].
  assert (Hrs : rec_stack st2 ∖ {[node]} = rec_stack st)
    by (rewrite Hr2; set_solver).
  unfold dfs_frame. simpl. rewrite Hrs. split_and!; try done; [|set_solver..].
  destruct Hinv as [], Hinv2 as []. split; simpl; try done.
  - intros n Hn. by apply Hsub2, elem_of_union_r, inv_visited0.
  - intros m t Hm Hr Hmt. destruct (decide (m = node)) as [->|Hne].
    + by apply Hv2.
    + apply (inv_closed1 m); [done | rewrite Hr2; set_solver | done].
  - intros m Hm Hr Hmm. destruct (decide (m = node)) as [->|Hne].
    + by apply Hl2.
    + apply inv_loops1; [done | rewrite Hr2; set_solver | done].
Qed.

Lemma find_cycles_loop_spec (ks : list Node) (st : dfs_state) :
  dfs_inv graph st → path st = [] → (∀ k, k ∈ ks → k ∈ graph_nodes graph) →
  ∃ st', for_each (dfs_start graph) ks st = Ok st'
         ∧ dfs_frame graph st st' ∧ (∀ k, k ∈ ks → k ∈ visited st').
Proof.
  revert st. induction ks as [|k ks IH]; intros st Hinv Hp Hks.
  - exists st. split; [done|]. split; [by apply dfs_frame_refl|].
    by intros ? ?%elem_of_nil.
  - assert (Hstep : ∃ st1, dfs_start graph st k = Ok st1
                           ∧ dfs_frame graph st st1 ∧ k ∈ visited st1).
    { unfold dfs_start. destruct (decide (k ∉ visited st)) as [Hnew|Hold].
      - apply dfs_spec; try done.
        + apply Hks. by left.
        + by rewrite Hp.
        + pose proof (unvisited_bound graph st). lia.
      - apply dec_stable in Hold. exists st. by split_and!. }
    destruct Hstep as (st1 & Hs & Hf1 & Hk).
    pose proof Hf1 as (Hinv1 & Hp1 & _ & _ & _).
    destruct (IH st1) as (st2 & Hrest & Hf2 & Hv2); try done.
    + congruence.
    + intros k' Hk'. apply Hks. by right.
    + exists st2. rewrite for_each_cons, Hs. split; [done|].
      split; [by eapply dfs_frame_trans|].
      destruct Hf2 as (_ & _ & _ & Hsub & _).
      intros k' [->|Hk']%elem_of_cons; [set_solver | by apply Hv2].
Qed.

(** The final state of [find_cycles]. *)
Lemma find_cycles_spec :
  ∃ st, for_each (dfs_start graph) graph.*1 dfs_init = Ok st
        ∧ find_cycles graph = Ok (cycles st) ∧ dfs_inv graph st
        ∧ path st = [] ∧ rec_stack st = ∅
        ∧ (∀ n, is_node graph n → n ∈ visited st).
Proof.
  destruct (find_cycles_loop_spec graph.*1 dfs_init)
    as (st & Hrun & (Hinv & Hp & Hr & _) & Hv).
  - apply dfs_init_inv.
  - done.
  - apply key_graph_nodes.
  - exists st. unfold find_cycles. rewrite Hrun. split_and!; try done.
    intros n [Hk|[u Hu]]; [by apply Hv|].
    apply (inv_closed _ _ Hinv u); [|by rewrite Hr|done].
    by eapply Hv, edge_source_key.
Qed.

Lemma elementary_cycle_tc (c : Cycle) :
  elementary_cycle graph c → ∃ n, tc (edge graph) n n.
Proof.
  intros (n0 & l & -> & _ & Hchain). exists n0. by eapply chain_tc.
Qed.

End DfsCorrect.

(** ** The logged traversal *)

Lemma for_each_erase {A : Type} (bodyT : traced → A → result traced)
    (body : dfs_state → A → result dfs_state) :
  (∀ s x, result_map fst (bodyT s x) = body s.1 x) →
  ∀ l s, result_map fst (for_each bodyT l s) = for_each body l s.1.
Proof.
  intros Hbody l. induction l as [|x l IH]; intros s; [done|].
  rewrite !for_each_cons, <- Hbody.
  destruct (bodyT s x) as [s'|e]; simpl; [apply IH | done].
Qed.

Lemma dfs_visit_traced_erase (recT : Node → traced → result traced)
    (rec : Node → dfs_state → result dfs_state) :
  (∀ n s, result_map fst (recT n s) = rec n s.1) →
  ∀ s t, result_map fst (dfs_visit_traced recT s t) = dfs_visit rec s.1 t.
Proof.
  intros Hrec s t. unfold dfs_visit_traced, dfs_visit.
  destruct (decide (t ∉ visited s.1)); [apply Hrec|].
  destruct (decide (t ∈ rec_stack s.1)); [|done].
  by destruct (record_cycle t s.1).
Qed.

Lemma dfs_traced_erase (graph : Graph) (fuel : nat) (node : Node) (s : traced) :
  result_map fst (dfs_traced fuel graph node s) = dfs fuel graph node s.1.
Proof.
  revert node s. induction fuel as [|fuel IH]; intros node s; [done|].
  pose proof (for_each_erase _ _ (dfs_visit_traced_erase _ _ IH)
                (graph_get graph node) (dfs_enter node s.1, s.2 ++ [Enter node]))
    as Hloop.
  simpl in *. rewrite <- Hloop.
  destruct (for_each _ _ _) as [s2|e]; simpl; [|done].
  by destruct (dfs_leave node s2.1).
Qed.

Lemma dfs_start_traced_erase (graph : Graph) (s : traced) (node : Node) :
  result_map fst (dfs_start_traced graph s node) = dfs_start graph s.1 node.
Proof.
  unfold dfs_start_traced, dfs_start.
  destruct (decide (node ∉ visited s.1)); [apply dfs_traced_erase | done].
Qed.

Lemma find_cycles_traced_erase (graph : Graph) :
  result_map fst (find_cycles_traced graph) = find_cycles graph.
Proof.
  unfold find_cycles_traced, find_cycles.
  pose proof (for_each_erase _ _ (dfs_start_traced_erase graph) graph.*1
                (dfs_init, [])) as Hloop.
  simpl in *. rewrite <- Hloop. by destruct (for_each _ _ _).
Qed.

Lemma bracketed_app (a b : list dfs_event) :
  bracketed a → bracketed b → bracketed (a ++ b).
Proof.
  induction 1 as [|n inner after Hi _ Ha IH]; intros Hb; simpl; [done|].
  rewrite <- app_assoc. simpl. constructor; [done | by apply IH].
Qed.

Lemma entered_app (a b : list dfs_event) :
  entered (a ++ b) = entered a ++ entered b.
Proof. apply omap_app. Qed.

Lemma log_for_nil (st : dfs_state) : log_for st st [].
Proof.
  unfold log_for. simpl. split_and!.
  - constructor.
  - constructor.
  - by intros n ?%elem_of_nil.
  - set_solver.
Qed.

Lemma log_for_app (st1 st2 st3 : dfs_state) (a b : list dfs_event) :
  log_for st1 st2 a → log_for st2 st3 b → log_for st1 st3 (a ++ b).
Proof.
  intros (Hb1 & Hd1 & Hn1 & Hv1) (Hb2 & Hd2 & Hn2 & Hv2).
  unfold log_for. rewrite entered_app. split_and!.
  - by apply bracketed_app.
  - apply NoDup_app. split_and!; [done| |done].
    intros n Ha Hb. apply (Hn2 n Hb). rewrite Hv1. set_solver.
  - intros n [Ha|Hb]%elem_of_app; [by apply Hn1|].
    intros Hv. apply (Hn2 n Hb). rewrite Hv1. set_solver.
  - rewrite Hv2, Hv1, list_to_set_app_L. set_solver.
Qed.

Lemma record_cycle_visited (t : Node) (st st' : dfs_state) :
  record_cycle t st = Ok st' → visited st' = visited st.
Proof.
  unfold record_cycle. intros (i & _ & [= <-])%bind_Ok. done.
Qed.

Lemma dfs_leave_visited (n : Node) (st st' : dfs_state) :
  dfs_leave n st = Ok st' → visited st' = visited st.
Proof.
  unfold dfs_leave. intros (p & _ & (r & _ & [= <-])%bind_Ok)%bind_Ok. done.
Qed.

Section Logged.
Variable graph : Graph.

Lemma dfs_loop_log (rec : Node → traced → result traced) :
  (∀ t s s', t ∉ visited s.1 → rec t s = Ok s' →
             ∃ evs, s'.2 = s.2 ++ evs ∧ log_for s.1 s'.1 evs) →
  ∀ ns s s', for_each (dfs_visit_traced rec) ns s = Ok s' →
             ∃ evs, s'.2 = s.2 ++ evs ∧ log_for s.1 s'.1 evs.
Proof.
  intros Hrec ns. induction ns as [|t ns IH]; intros s s'.
  - intros [= <-]. exists []. split; [by rewrite app_nil_r | apply log_for_nil].
  - rewrite for_each_cons. intros (s1 & Hstep & Hrest)%bind_Ok.
    assert (∃ evs, s1.2 = s.2 ++ evs ∧ log_for s.1 s1.1 evs)
      as (e1 & Ht1 & Hl1).
    { unfold dfs_visit_traced in Hstep.
      destruct (decide (t ∉ visited s.1)); [by apply (Hrec t)|].
      destruct (decide (t ∈ rec_stack s.1)).
      - apply bind_Ok in Hstep as (st & Hrc & [= <-]). simpl.
        exists []. split; [by rewrite app_nil_r|].
        apply record_cycle_visited in Hrc.
        pose proof (log_for_nil s.1) as (? & ? & ? & ?).
        unfold log_for. split_and!; try done. rewrite Hrc. set_solver.
      - injection Hstep as <-. exists [].
        split; [by rewrite app_nil_r | apply log_for_nil]. }
    destruct (IH s1 s' Hrest) as (e2 & Ht2 & Hl2).
    exists (e1 ++ e2). split; [by rewrite Ht2, Ht1, app_assoc|].
    by eapply log_for_app.
Qed.

Lemma dfs_traced_log (fuel : nat) (node : Node) (s s' : traced) :
  node ∉ visited s.1 → dfs_traced fuel graph node s = Ok s' →
  ∃ evs, s'.2 = s.2 ++ evs ∧ log_for s.1 s'.1 evs.
Proof.
  revert node s s'. induction fuel as [|fuel IH]; intros node s s' Hnew; [done|].
  simpl. intros (s2 & Hloop & (st3 & Hleave & [= <-])%bind_Ok)%bind_Ok.
  apply (dfs_loop_log _ (IH)) in Hloop as (inner & Ht & Hb & Hd & Hn & Hv).
  simpl in *. apply dfs_leave_visited in Hleave.
  exists (Enter node :: inner ++ [Leave node]). split.
  { rewrite Ht, <- !app_assoc. done. }
  unfold log_for. simpl. rewrite entered_app. simpl. rewrite app_nil_r.
  split_and!.
  - constructor; [done | constructor].
  - constructor; [|done]. intros Hin. apply (Hn node Hin). set_solver.
  - intros n [->|Hin]%elem_of_cons; [done|].
    intros Hv'. apply (Hn n Hin). set_solver.
  - rewrite Hleave, Hv. set_solver.
Qed.

Lemma find_cycles_loop_log (ks : list Node) (s s' : traced) :
  for_each (dfs_start_traced graph) ks s = Ok s' →
  ∃ evs, s'.2 = s.2 ++ evs ∧ log_for s.1 s'.1 evs.
Proof.
  revert s s'. induction ks as [|k ks IH]; intros s s'.
  - intros [= <-]. exists []. split; [by rewrite app_nil_r | apply log_for_nil].
  - rewrite for_each_cons. intros (s1 & Hstep & Hrest)%bind_Ok.
    assert (∃ evs, s1.2 = s.2 ++ evs ∧ log_for s.1 s1.1 evs)
      as (e1 & Ht1 & Hl1).
    { unfold dfs_start_traced in Hstep.
      destruct (decide (k ∉ visited s.1)); [by eapply dfs_traced_log|].
      injection Hstep as <-. exists [].
      split; [by rewrite app_nil_r | apply log_for_nil]. }
    destruct (IH s1 s' Hrest) as (e2 & Ht2 & Hl2).
    exists (e1 ++ e2). split; [by rewrite Ht2, Ht1, app_assoc|].
    by eapply log_for_app.
Qed.

End Logged.

(** ** Counting events *)

Lemma enter_count_entered (n : Node) (log : list dfs_event) :
  enter_count n log = length (filter (λ m, m = n) (entered log)).
Proof.
  unfold enter_count. induction log as [|[m|m] log IH]; simpl; [done| |].
  - rewrite !filter_cons. destruct (decide (m = n)) as [->|Hne].
    + rewrite decide_True by done. simpl. by rewrite IH.
    + rewrite decide_False by congruence. done.
  - rewrite filter_cons, decide_False by done. done.
Qed.

Lemma leave_count_bracketed (n : Node) (log : list dfs_event) :
  bracketed log → leave_count n log = enter_count n log.
Proof.
  unfold leave_count, enter_count.
  induction 1 as [|m inner after _ IHi _ IHa]; [done|].
  rewrite !filter_cons, !filter_app, !filter_cons.
  rewrite (decide_False (P := Enter m = Leave n)) by done.
  rewrite (decide_False (P := Leave m = Enter n)) by done.
  destruct (decide (m = n)) as [->|Hne].
  - rewrite !decide_True by done. simpl. rewrite !length_app. simpl. lia.
  - rewrite !decide_False by congruence. rewrite !length_app. lia.
Qed.

Lemma count_NoDup (x : Node) (l : list Node) :
  NoDup l → length (filter (λ m, m = x) l) = if decide (x ∈ l) then 1 else 0.
Proof.
  induction 1 as [|y l Hy _ IH]; [done|].
  rewrite filter_cons. destruct (decide (y = x)) as [->|Hne].
  - simpl. rewrite IH, decide_False by done. rewrite decide_True by left. done.
  - rewrite IH. destruct (decide (x ∈ l)).
    + rewrite decide_True by (by right). done.
    + rewrite decide_False; [done|]. intros [->|?]%elem_of_cons; done.
Qed.

Lemma status_enter (n : Node) (st : dfs_state) :
  dfs_inv_stack_visited st → n ∉ visited st →
  status st n = Unvisited ∧ status (dfs_enter n st) n = Active.
Proof.
  intros Hsub Hn. unfold status, dfs_enter. simpl. split.
  - rewrite decide_False by (intros ?; by apply Hn, Hsub).
    by rewrite decide_False.
  - rewrite decide_True by set_solver. done.
Qed.

Lemma status_leave (n : Node) (st st' : dfs_state) :
  dfs_leave n st = Ok st' → n ∈ visited st → status st' n = Finished.
Proof.
  unfold dfs_leave, set_remove.
  intros (p & _ & (r & Hr & [= <-])%bind_Ok)%bind_Ok Hn.
  destruct (decide (n ∈ rec_stack st)); [|done]. injection Hr as <-.
  unfold status. simpl. rewrite decide_False by set_solver.
  by rewrite decide_True.
Qed.

(** ** The order on path strings *)

Lemma str_compare_OT (a b : string) :
  String.compare a b = OrdersEx.String_as_OT.compare a b.
Proof.
  revert b. induction a as [|c a IH]; intros [|d b]; simpl; try done.
Qed.

Lemma str_ltb_lt (a b : string) :
  String.ltb a b = true ↔ OrdersEx.String_as_OT.lt a b.
Proof.
  unfold String.ltb, OrdersEx.String_as_OT.lt. rewrite str_compare_OT.
  by destruct (OrdersEx.String_as_OT.compare a b).
Qed.

Lemma str_ltb_irrefl (a : string) : String.ltb a a = false.
Proof.
  apply not_true_is_false. rewrite str_ltb_lt.
  apply (irreflexivity OrdersEx.String_as_OT.lt).
Qed.

Lemma str_ltb_trans (a b c : string) :
  String.ltb a b = true → String.ltb b c = true → String.ltb a c = true.
Proof.
  rewrite !str_ltb_lt. apply (transitivity (R := OrdersEx.String_as_OT.lt)).
Qed.

Lemma str_ltb_total (a b : string) :
  String.ltb a b = false → String.ltb b a = false → a = b.
Proof.
  unfold String.ltb. rewrite (String.compare_antisym b a).
  destruct (String.compare a b) eqn:Hc; simpl; try done.
  intros _ _. by apply String.compare_eq_iff.
Qed.

(** ** [min] and the normal form of a cycle *)

Lemma py_min_from_spec (best : Node) (l : list Node) :
  py_min_from best l ∈ best :: l
  ∧ ∀ x, x ∈ best :: l → String.ltb x (py_min_from best l) = false.
Proof.
  revert best. induction l as [|y l IH]; intros best; simpl.
  - split; [left|]. intros x ->%list_elem_of_singleton. apply str_ltb_irrefl.
  - destruct (IH (if String.ltb y best then y else best)) as [Hin Hmin].
    set (m := py_min_from _ l) in *. split.
    + destruct (String.ltb y best); set_solver.
    + intros x Hx. destruct (String.ltb y best) eqn:Hyb.
      * apply elem_of_cons in Hx as [->|Hx]; [|by apply Hmin].
        apply not_true_is_false. intros Hbm.
        assert (String.ltb y m = false) as Hym by (apply Hmin; left).
        by rewrite (str_ltb_trans y best m) in Hym.
      * apply elem_of_cons in Hx as [->|[->|Hx]%elem_of_cons];
          [apply Hmin; left | | apply Hmin; by right].
        apply not_true_is_false. intros Hym.
        assert (String.ltb best m = false) as Hbm by (apply Hmin; left).
        destruct (String.ltb m best) eqn:Hmb.
        -- by rewrite (str_ltb_trans y m best) in Hyb.
        -- rewrite (str_ltb_total _ _ Hbm Hmb) in Hyb. congruence.
Qed.

Lemma py_min_spec (l : list Node) :
  l ≠ [] →
  ∃ m, py_min l = Ok m ∧ m ∈ l ∧ ∀ x, x ∈ l → String.ltb x m = false.
Proof.
  destruct l as [|x l]; [done|]. intros _. exists (py_min_from x l).
  split; [done|]. apply py_min_from_spec.
Qed.

(** The smallest element does not depend on the order of the list. *)
Lemma py_min_perm (l l' : list Node) (m : Node) :
  l ≡ₚ l' → py_min l = Ok m → py_min l' = Ok m.
Proof.
  intros Hperm Hm.
  assert (l ≠ []) as Hne by (intros ->; done).
  assert (l' ≠ []) as Hne' by (intros ->; by apply Permutation_nil_r in Hperm).
  destruct (py_min_spec l Hne) as (m1 & Hm1 & Hin1 & Hmin1).
  destruct (py_min_spec l' Hne') as (m2 & Hm2 & Hin2 & Hmin2).
  rewrite Hm in Hm1. injection Hm1 as <-. rewrite Hm2. f_equal.
  apply str_ltb_total.
  - apply Hmin1. by rewrite Hperm.
  - apply Hmin2. by rewrite <- Hperm.
Qed.

Lemma list_index_middle (m : Node) (l1 l2 : list Node) :
  m ∉ l1 → list_index m (l1 ++ m :: l2) = Ok (length l1).
Proof.
  induction l1 as [|y l1 IH]; intros Hm; simpl.
  - by rewrite decide_True.
  - rewrite decide_False by set_solver. rewrite IH by set_solver. done.
Qed.

(** The normal form of a cycle whose smallest node is [m]: the cycle read
    from [m] on. *)
Lemma normalize_cycle_at (l1 l2 : list Node) (m x : Node) :
  py_min (l1 ++ m :: l2) = Ok m → m ∉ l1 →
  normalize_cycle ((l1 ++ m :: l2) ++ [x]) = Ok (m :: l2 ++ l1 ++ [m]).
Proof.
  intros Hmin Hm. unfold normalize_cycle.
  rewrite removelast_last, Hmin. simpl.
  rewrite <- app_assoc. simpl. rewrite list_index_middle by done. simpl.
  unfold list_item. rewrite list_lookup_middle by done. simpl.
  rewrite drop_app_length, take_app_length. done.
Qed.

(** Rotations of one another have the same normal form. *)
Lemma normalize_cycle_rotation (a b : list Node) (x y : Node) :
  NoDup (a ++ b) → a ++ b ≠ [] →
  ∃ nf, normalize_cycle ((a ++ b) ++ [x]) = Ok nf
        ∧ normalize_cycle ((b ++ a) ++ [y]) = Ok nf.
Proof.
  intros Hnd Hne.
  destruct (py_min_spec (a ++ b) Hne) as (m & Hmin & Hin & _).
  assert (py_min (b ++ a) = Ok m) as Hmin'
    by (eapply py_min_perm; [apply Permutation_app_comm | done]).
  apply NoDup_app in Hnd as (Ha & Hab & Hb).
  apply elem_of_app in Hin as [Hin|Hin].
  - apply list_elem_of_split in Hin as (a1 & a2 & ->).
    apply NoDup_app in Ha as (_ & Ha1 & _).
    assert (m ∉ a1) as Hm1 by (intros ?; apply (Ha1 m); [done | left]).
    assert (m ∉ b) as Hmb by (apply Hab; set_solver).
    exists (m :: a2 ++ b ++ a1 ++ [m]). split.
    + rewrite <- (app_assoc a1 (m :: a2) b) in *. simpl in *.
      rewrite normalize_cycle_at by done. by rewrite <- app_assoc.
    + rewrite (app_assoc b a1 (m :: a2)) in *.
      rewrite normalize_cycle_at by set_solver. by rewrite <- app_assoc.
  - apply list_elem_of_split in Hin as (b1 & b2 & ->).
    apply NoDup_app in Hb as (_ & Hb1 & _).
    assert (m ∉ b1) as Hm1 by (intros ?; apply (Hb1 m); [done | left]).
    assert (m ∉ a) as Hma by (intros ?; apply (Hab m); set_solver).
    exists (m :: b2 ++ a ++ b1 ++ [m]). split.
    + rewrite (app_assoc a b1 (m :: b2)) in *.
      rewrite normalize_cycle_at by set_solver. by rewrite <- app_assoc.
    + rewrite <- (app_assoc b1 (m :: b2) a) in *. simpl in *.
      rewrite normalize_cycle_at by done. by rewrite <- app_assoc.
Qed.

(** Every list of two or more nodes has a normal form. *)
Lemma normalize_cycle_total (x : Node) (l : list Node) (y : Node) :
  ∃ nf, normalize_cycle (x :: l ++ [y]) = Ok nf.
Proof.
  destruct (py_min_spec (x :: l)) as (m & Hm & Hin & _); [done|].
  destruct (list_index_elem m (x :: l ++ [y])) as (i & Hidx & Hi);
    [set_solver|].
  unfold normalize_cycle.
  change (x :: l ++ [y]) with ((x :: l) ++ [y]) in *.
  rewrite removelast_last, Hm. cbn [mbind result_bind].
  rewrite Hidx. cbn [mbind result_bind].
  unfold list_item. rewrite Hi. cbn [mbind result_bind]. by eexists.
Qed.

Lemma unique_cycles_single (c : Cycle) (nf : list Node) :
  normalize_cycle c = Ok nf → unique_cycles [c] = Ok [c].
Proof.
  intros Hnf. unfold unique_cycles. simpl. rewrite Hnf. simpl.
  rewrite decide_True by set_solver. done.
Qed.

Lemma unique_cycles_same (c1 c2 : Cycle) (nf : list Node) :
  normalize_cycle c1 = Ok nf → normalize_cycle c2 = Ok nf →
  unique_cycles [c1; c2] = Ok [c1].
Proof.
  intros H1 H2. unfold unique_cycles. simpl. rewrite H1. simpl.
  rewrite decide_True by set_solver. simpl. rewrite H2. simpl.
  rewrite decide_False by set_solver. done.
Qed.

(** ** The three-node cycle *)

Lemma dfs_S (fuel : nat) (graph : Graph) (node : Node) (st : dfs_state) :
  dfs (S fuel) graph node st
  = for_each (dfs_visit (dfs fuel graph)) (graph_get graph node)
      (dfs_enter node st) ≫= dfs_leave node.
Proof. done. Qed.

Ltac dfs_eval :=
  repeat first
    [ progress cbn [for_each dfs_visit dfs_enter dfs_leave record_cycle
                    list_pop set_remove list_index mbind result_bind
                    cycles visited rec_stack path app drop removelast dfs_init]
    | progress unfold dfs_visit, dfs_enter, dfs_leave, record_cycle,
                      list_pop, set_remove
    | rewrite decide_True by set_solver
    | rewrite decide_False by set_solver
    | rewrite dfs_S
    | match goal with H : graph_get _ _ = _ |- _ => rewrite H end ].

Lemma dfs_triangle (graph : Graph) (X Y Z : Node) (fuel : nat) :
  X ≠ Y → Y ≠ Z → X ≠ Z →
  graph_get graph X = [Y] → graph_get graph Y = [Z] → graph_get graph Z = [X] →
  ∃ st, dfs (S (S (S fuel))) graph X dfs_init = Ok st
        ∧ cycles st = [[X; Y; Z; X]]
        ∧ X ∈ visited st ∧ Y ∈ visited st ∧ Z ∈ visited st.
Proof.
  intros Hxy Hyz Hxz HX HY HZ. eexists. split.
  - dfs_eval. reflexivity.
  - cbn [cycles visited]. split; [done|]. set_solver.
Qed.

Lemma dict_get_NoDup {V : Type} (d : list (Node * V)) (k : Node) (v : V) :
  NoDup d.*1 → (k, v) ∈ d → dict_get d k = Some v.
Proof.
  induction d as [|[k' v'] d IH]; simpl; [by intros _ ?%elem_of_nil|].
  intros [Hk' Hd]%NoDup_cons [[= -> ->]|Hin]%elem_of_cons.
  - by rewrite decide_True.
  - rewrite decide_False; [by apply IH|].
    intros ->. apply Hk', list_elem_of_fmap. by exists (k, v).
Qed.

Lemma for_each_dfs_start_visited (graph : Graph) (ks : list Node) (st : dfs_state) :
  (∀ k, k ∈ ks → k ∈ visited st) → for_each (dfs_start graph) ks st = Ok st.
Proof.
  induction ks as [|k ks IH]; intros Hks; [done|].
  rewrite for_each_cons.
  assert (dfs_start graph st k = Ok st) as ->.
  { unfold dfs_start. rewrite decide_False; [done|].
    intros Hn. apply Hn, Hks. left. }
  simpl. apply IH. intros k' Hk'. apply Hks. by right.
Qed.

Lemma find_cycles_triangle (A B C : Node) (graph : Graph) :
  A ≠ B → B ≠ C → A ≠ C →
  graph ≡ₚ [(A, [B]); (B, [C]); (C, [A])] →
  ∃ c, find_cycles graph = Ok [c] ∧ c ∈ rotations3 A B C
       ∧ head c = head graph.*1.
Proof.
  intros Hab Hbc Hac Hperm.
  assert (graph.*1 ≡ₚ [A; B; C]) as Hkeys by (by rewrite Hperm).
  assert (NoDup graph.*1) as Hnd.
  { rewrite Hkeys. repeat (constructor; [set_solver|]). constructor. }
  assert (graph_get graph A = [B]) as HA.
  { unfold graph_get. rewrite (dict_get_NoDup graph A [B]); [done..|].
    rewrite Hperm. set_solver. }
  assert (graph_get graph B = [C]) as HB.
  { unfold graph_get. rewrite (dict_get_NoDup graph B [C]); [done..|].
    rewrite Hperm. set_solver. }
  assert (graph_get graph C = [A]) as HC.
  { unfold graph_get. rewrite (dict_get_NoDup graph C [A]); [done..|].
    rewrite Hperm. set_solver. }
  assert (∃ fuel, length (graph_nodes graph) = S (S fuel)) as [fuel Hfuel].
  { exists (length (graph_nodes graph) - 2). unfold graph_nodes.
    rewrite length_app, Hkeys. simpl. lia. }
  destruct graph as [|[k v] graph']; [by apply Permutation_nil_l in Hperm|].
  assert (k ∈ [A; B; C]) as Hk by (rewrite <- Hkeys; left).
  assert (∀ X Y Z, k = X → X ≠ Y → Y ≠ Z → X ≠ Z →
            (∀ n, n ∈ [A; B; C] → n ∈ [X; Y; Z]) →
            graph_get ((k, v) :: graph') X = [Y] →
            graph_get ((k, v) :: graph') Y = [Z] →
            graph_get ((k, v) :: graph') Z = [X] →
            find_cycles ((k, v) :: graph') = Ok [[X; Y; Z; X]]) as Hrun.
  { intros X Y Z -> Hxy Hyz Hxz Hall HX HY HZ.
    destruct (dfs_triangle _ X Y Z fuel Hxy Hyz Hxz HX HY HZ)
      as (st & Hdfs & Hc & Hvx & Hvy & Hvz).
    unfold find_cycles. cbn [fmap list_fmap fst]. rewrite for_each_cons.
    assert (dfs_start ((X, v) :: graph') dfs_init X = Ok st) as ->.
    { unfold dfs_start. rewrite decide_True by set_solver.
      by rewrite Hfuel. }
    cbn [mbind result_bind].
    rewrite for_each_dfs_start_visited; [by rewrite <- Hc|].
    intros n Hn.
    assert (n ∈ [X; Y; Z]) as Hn'.
    { apply Hall. rewrite <- Hkeys. by right. }
    set_solver. }
  unfold rotations3. simpl.
  apply elem_of_cons in Hk as [-> | [-> | ->%list_elem_of_singleton]%elem_of_cons].
  - exists [A; B; C; A]. split; [|set_solver]. apply Hrun; try done.
  - exists [B; C; A; B]. split; [|set_solver]. apply Hrun; try done. set_solver.
  - exists [C; A; B; C]. split; [|set_solver]. apply Hrun; try done. set_solver.
Qed.

Lemma rotations3_normal_form (A B C : Node) :
  A ≠ B → B ≠ C → A ≠ C →
  ∃ nf, ∀ c, c ∈ rotations3 A B C → normalize_cycle c = Ok nf.
Proof.
  intros Hab Hbc Hac.
  assert (NoDup [A; B; C]) as Hnd.
  { repeat (constructor; [set_solver|]). constructor. }
  destruct (normalize_cycle_rotation [A] [B; C] A B) as (nf & H1 & H2);
    [done..|].
  destruct (normalize_cycle_rotation [A; B] [C] A C) as (nf' & H3 & H4);
    [done..|].
  simpl in *. rewrite H1 in H3. injection H3 as <-.
  exists nf. unfold rotations3.
  intros c [-> | [-> | ->%list_elem_of_singleton]%elem_of_cons]%elem_of_cons; done.
Qed.

(** ** Results on the cycle finder *)

Lemma acyclic_ranked (graph : Graph) (rank : Node → nat) :
  (∀ u v, edge graph u v → rank v < rank u) → acyclic graph.
Proof.
  intros Hrank n Hn.
  assert (∀ u v, tc (edge graph) u v → rank v < rank u) as Htc.
  { induction 1 as [u v Huv|u w v Huw _ IH]; [by apply Hrank|].
    apply Hrank in Huw. lia. }
  apply Htc in Hn. lia.
Qed.

(** C1. For the graph whose edges are exactly [A → B → C → A], whatever the
    order of its keys (so whichever node the traversal starts from),
    [find_cycles] followed by the de-duplication returns exactly one cycle;
    it is the triangle written from the first key, and its nodes are exactly
    [A], [B] and [C].  Moreover any two of the three ways of writing the
    triangle de-duplicate to the first of them. *)
Theorem triangle_single_cycle (A B C : Node) (graph : Graph) :
  A ≠ B → B ≠ C → A ≠ C →
  graph ≡ₚ [(A, [B]); (B, [C]); (C, [A])] →
  (∃ c, find_unique_cycles graph = Ok [c]
        ∧ c ∈ rotations3 A B C
        ∧ head c = head graph.*1
        ∧ ∀ n, n ∈ c ↔ n ∈ [A; B; C])
  ∧ (∀ c1 c2, c1 ∈ rotations3 A B C → c2 ∈ rotations3 A B C →
              unique_cycles [c1; c2] = Ok [c1]).
Proof.
  intros Hab Hbc Hac Hperm.
  destruct (rotations3_normal_form A B C Hab Hbc Hac) as [nf Hnf]. split.
  - destruct (find_cycles_triangle A B C graph Hab Hbc Hac Hperm)
      as (c & Hrun & Hc & Hhead).
    exists c. unfold find_unique_cycles. rewrite Hrun. simpl.
    split; [by eapply unique_cycles_single, Hnf|]. split; [done|].
    split; [done|]. unfold rotations3 in Hc.
    apply elem_of_cons in Hc
      as [-> | [-> | ->%list_elem_of_singleton]%elem_of_cons];
      intros n; rewrite !elem_of_cons, !elem_of_nil; naive_solver.
  - intros c1 c2 H1 H2. by eapply unique_cycles_same; apply Hnf.
Qed.

Lemma triangle_single_cycle_witness :
  (∃ c, find_unique_cycles [("b", ["c"]); ("c", ["a"]); ("a", ["b"])] = Ok [c]
        ∧ c ∈ rotations3 "a" "b" "c"
        ∧ head c = Some "b"
        ∧ ∀ n, n ∈ c ↔ n ∈ ["a"; "b"; "c"])
  ∧ (∀ c1 c2, c1 ∈ rotations3 "a" "b" "c" → c2 ∈ rotations3 "a" "b" "c" →
              unique_cycles [c1; c2] = Ok [c1]).
Proof.
  apply (triangle_single_cycle "a" "b" "c"
           [("b", ["c"]); ("c", ["a"]); ("a", ["b"])]); try done.
  apply (Permutation_app_comm [("b", ["c"]); ("c", ["a"])] [("a", ["b"])]).
Defined.







(** ** Results on import resolution *)

Section ResolverCorrect.
Variable parent : Path → Path.
Variable joinpath : Path → string → Path.
Variable resolve : Path → result Path.
Variable path_of_str : string → Path.
Variable path_exists : Path → bool.
Variable is_file : Path → bool.

Local Abbreviation resolve_import' :=
  (resolve_import parent joinpath resolve path_of_str path_exists is_file).
Local Abbreviation add_import' :=
  (add_import parent joinpath resolve path_of_str path_exists is_file).
Local Abbreviation try_suffixes' := (try_suffixes path_of_str path_exists is_file).
Local Abbreviation first_regular' := (first_regular path_of_str path_exists is_file).
Local Abbreviation none_regular' := (none_regular path_of_str path_exists is_file).

Lemma try_suffixes_Some (resolved : Path) (exts : list string) (c : Path) :
  try_suffixes' resolved exts = Some c ↔ first_regular' resolved exts c.
Proof.
  unfold first_regular. induction exts as [|ext exts IH]; simpl.
  - split; [done|]. intros (before & ? & ? & H & _). by destruct before.
  - fold (candidate path_of_str resolved ext).
    fold (regular_file path_exists is_file (candidate path_of_str resolved ext)).
    destruct (regular_file _ _ (candidate path_of_str resolved ext)) eqn:Hok.
    + split.
      * intros [= <-]. by exists [], ext, exts.
      * intros ([|e before] & ext' & after & Heq & -> & _ & Hbefore).
        -- by injection Heq as <- _.
        -- injection Heq as <- _. apply Forall_cons in Hbefore as [Hno _].
           congruence.
    + rewrite IH. split.
      * intros (before & ext' & after & -> & -> & Hc & Hbefore).
        exists (ext :: before), ext', after. split_and!; try done.
        by constructor.
      * intros ([|e before] & ext' & after & Heq & -> & Hc & Hbefore).
        -- injection Heq as <- _. congruence.
        -- injection Heq as <- ->. apply Forall_cons in Hbefore as [_ Hb].
           by exists before, ext', after.
Qed.

Lemma try_suffixes_None (resolved : Path) (exts : list string) :
  try_suffixes' resolved exts = None ↔ none_regular' resolved exts.
Proof.
  unfold none_regular. induction exts as [|ext exts IH]; simpl.
  - split; [by constructor | done].
  - fold (candidate path_of_str resolved ext).
    fold (regular_file path_exists is_file (candidate path_of_str resolved ext)).
    destruct (regular_file _ _ (candidate path_of_str resolved ext)) eqn:Hok.
    + split; [done|]. intros [Hno _]%Forall_cons. congruence.
    + rewrite IH. split; [by constructor | by intros [_ ?]%Forall_cons].
Qed.

(** C3. An import that starts neither with a dot nor with the alias
    prefix [@/] resolves to [None], and the loop of the graph builder
    leaves the graph as it was for it: no key and no edge is added, for
    one such import and for any list of them. *)
Theorem external_import_ignored (import_path : string)
    (from_file project_root : Path) (graph : Graph) :
  startswith import_path "." = false →
  startswith import_path "@/" = false →
  resolve_import' import_path from_file project_root = Ok None
  ∧ add_import' project_root from_file graph import_path = Ok graph
  ∧ ∀ imports,
      Forall (λ imp, startswith imp "." = false
                     ∧ startswith imp "@/" = false) imports →
      for_each (add_import' project_root from_file) imports graph = Ok graph.
Proof.
  assert (∀ imp, startswith imp "." = false → startswith imp "@/" = false →
                 resolve_import' imp from_file project_root = Ok None) as Hres.
  { intros imp Hdot Halias. unfold resolve_import. by rewrite Hdot, Halias. }
  assert (∀ imp, startswith imp "." = false → startswith imp "@/" = false →
                 add_import' project_root from_file graph imp = Ok graph) as Hadd.
  { intros imp Hdot Halias. unfold add_import. by rewrite Hres. }
  intros Hdot Halias. split; [by apply Hres|]. split; [by apply Hadd|].
  induction 1 as [|imp imports [Hd Ha] _ IH]; [done|].
  rewrite for_each_cons, Hadd by done. apply IH.
Qed.


End ResolverCorrect.

Lemma external_import_ignored_witness :
  ToyFS.resolve_import project3 "react" "/p/src/a.ts" "/p" = Ok None
  ∧ add_import ToyFS.parent ToyFS.joinpath ToyFS.resolve ToyFS.path_of_str
      (ToyFS.path_exists project3) (ToyFS.is_file project3)
      "/p" "/p/src/a.ts" [] "react" = Ok []
  ∧ ∀ imports,
      Forall (λ imp, startswith imp "." = false
                     ∧ startswith imp "@/" = false) imports →
      for_each
        (add_import ToyFS.parent ToyFS.joinpath ToyFS.resolve ToyFS.path_of_str
           (ToyFS.path_exists project3) (ToyFS.is_file project3)
           "/p" "/p/src/a.ts") imports [] = Ok [].
Proof.
  apply (external_import_ignored ToyFS.parent ToyFS.joinpath ToyFS.resolve
           ToyFS.path_of_str (ToyFS.path_exists project3)
           (ToyFS.is_file project3) "react" "/p/src/a.ts" "/p" []);
    reflexivity.
Defined.


Example resolve_import_b :
  ToyFS.resolve_import project3 "./b" "/p/src/a.ts" "/p" = Ok (Some "/p/src/b.ts").
Proof. vm_compute. reflexivity. Qed.

Example resolve_import_alias_index :
  ToyFS.resolve_import project3 "@/lib" "/p/src/a.ts" "/p"
  = Ok (Some "/p/src/lib/index.js").
Proof. vm_compute. reflexivity. Qed.

(** ** Matches come left to right *)

Lemma rmatch_advance {R : Type} (r : regex) (cur : cursor) (grp : option string)
    (k : cursor → option string → option R) (x : R) :
  rmatch r cur grp k = Some x →
  ∃ cur' grp', pos cur ≤ pos cur' ∧ k cur' grp' = Some x.
Proof.
  revert cur grp k. induction r as [p| | |r1 IH1 r2 IH2|greedy r1 IH1|r1 IH1];
    intros cur grp k; simpl.
  - destruct (rest cur) as [|c s]; [done|]. destruct (p c); [|done].
    intros Hk. eexists _, _. split; [|done]. simpl. lia.
  - destruct (bol cur); [|done]. intros Hk. by eexists _, _.
  - intros Hk. by eexists _, _.
  - intros (cur1 & grp1 & Hle1 & H2)%IH1.
    apply IH2 in H2 as (cur2 & grp2 & Hle2 & Hk).
    eexists _, _. split; [|done]. lia.
  - generalize (String.length (rest cur)) as n. intros n.
    revert cur grp. induction n as [|n IHn]; intros cur grp.
    + intros Hk. by eexists _, _.
    + simpl.
      assert (rmatch r1 cur grp
                (λ cur' grp',
                   if pos cur <? pos cur'
                   then star_loop (rmatch r1) greedy k n cur' grp'
                   else None) = Some x →
              ∃ cur' grp', pos cur ≤ pos cur' ∧ k cur' grp' = Some x) as Hmore.
      { intros (cur1 & grp1 & Hle1 & H)%IH1.
        destruct (pos cur <? pos cur1); [|done].
        apply IHn in H as (cur2 & grp2 & Hle2 & Hk).
        eexists _, _. split; [|done]. lia. }
      destruct greedy.
      * destruct (rmatch r1 cur grp _) as [y|] eqn:Hm.
        -- intros [= ->]. by apply Hmore.
        -- intros Hk. by eexists _, _.
      * destruct (k cur grp) as [y|] eqn:Hk.
        -- intros [= ->]. by eexists _, _.
        -- apply Hmore.
  - intros (cur1 & grp1 & Hle1 & Hk)%IH1. by eexists _, _.
Qed.

Lemma match_at_advance (r : regex) (cur cur' : cursor) (grp : option string) :
  match_at r cur = Some (cur', grp) → pos cur ≤ pos cur'.
Proof.
  unfold match_at. intros (c & g & Hle & [= -> ->])%rmatch_advance. done.
Qed.

Lemma search_advance (r : regex) (p : nat) (b : bool) (s : string)
    (start : nat) (cur' : cursor) (grp : option string) :
  search r p b s = Some (start, (cur', grp)) → p ≤ start ∧ start ≤ pos cur'.
Proof.
  revert p b. induction s as [|c s IH]; intros p b; simpl.
  - destruct (match_at _ _) as [[c' g]|] eqn:Hm; [|done].
    intros [= <- <- <-]. apply match_at_advance in Hm. simpl in Hm. lia.
  - destruct (match_at _ _) as [[c' g]|] eqn:Hm.
    + intros [= <- <- <-]. apply match_at_advance in Hm. simpl in Hm. lia.
    + intros H%IH. lia.
Qed.

Lemma increasing_cons (x : nat) (l : list nat) :
  Forall (λ y, x < y) l → increasing l → increasing (x :: l).
Proof.
  intros Hx Hl. simpl. split; [|done].
  destruct l as [|y l]; [done|]. by apply Forall_cons in Hx as [? _].
Qed.

Lemma finditer_from_increasing (fuel : nat) (r : regex) (cur : cursor) :
  Forall (λ m, pos cur ≤ m_start m) (finditer_from fuel r cur)
  ∧ increasing (m_start <$> finditer_from fuel r cur).
Proof.
  revert cur. induction fuel as [|fuel IH]; intros cur; simpl; [done|].
  destruct (search r (pos cur) (bol cur) (rest cur))
    as [[start [cur' grp]]|] eqn:Hs; [|done].
  apply search_advance in Hs as [Hle1 Hle2].
  assert (∃ tail, (if start <? pos cur' then finditer_from fuel r cur'
                   else match rest cur' with
                        | EmptyString => []
                        | String c s => finditer_from fuel r (cursor_next c s cur')
                        end) = tail
                  ∧ Forall (λ m, start < m_start m) tail
                  ∧ increasing (m_start <$> tail)) as (tail & -> & Hlt & Hinc).
  { destruct (start <? pos cur') eqn:Hlt.
    - apply Nat.ltb_lt in Hlt. destruct (IH cur') as [Hall Hinc].
      eexists. split; [done|]. split; [|done].
      eapply Forall_impl; [done|]. simpl. intros m Hm. lia.
    - destruct (rest cur') as [|c s]; [by exists []|].
      destruct (IH (cursor_next c s cur')) as [Hall Hinc].
      eexists. split; [done|]. split; [|done].
      eapply Forall_impl; [done|]. simpl. intros m Hm. lia. }
  split.
  - constructor; [done|]. eapply Forall_impl; [done|]. simpl. intros m Hm. lia.
  - rewrite fmap_cons. apply increasing_cons; [|done]. simpl.
    by apply Forall_fmap.
Qed.

Lemma finditer_increasing (pattern : regex) (content : string) :
  increasing (m_start <$> finditer pattern content).
Proof. apply finditer_from_increasing. Qed.

(** ** Results on import extraction *)

Lemma foldl_append_group1 (acc : list string) (ms : list re_match) :
  foldl (λ imports m, imports ++ [m_group1 m]) acc ms = acc ++ (m_group1 <$> ms).
Proof.
  revert acc. induction ms as [|m ms IH]; intros acc; simpl.
  - by rewrite app_nil_r.
  - by rewrite IH, <- app_assoc.
Qed.

Lemma foldl_patterns (content : string) (acc : list string) (patterns : list regex) :
  foldl (λ imports pattern,
           foldl (λ imports m, imports ++ [m_group1 m]) imports
             (finditer pattern content)) acc patterns
  = acc ++ (m_group1 <$> flat_map (λ pattern, finditer pattern content) patterns).
Proof.
  revert acc. induction patterns as [|p ps IH]; intros acc; simpl.
  - by rewrite app_nil_r.
  - by rewrite IH, foldl_append_group1, fmap_app, app_assoc.
Qed.

Lemma extract_imports_Ok (read_text : Path → result string) (file_path : Path)
    (lang content : string) :
  read_text file_path = Ok content →
  extract_imports read_text file_path lang
  = Ok (m_group1 <$> all_matches content lang).
Proof.
  intros Hread. unfold extract_imports, extract_try. rewrite Hread.
  by rewrite foldl_patterns.
Qed.

(** C5, as the code has it.  When the file can be read, [extract_imports]
    returns the import target of every match of every pattern of the
    ecosystem's table, duplicates included: pattern by pattern in the order
    of the table, and for one pattern from left to right in the text. *)
Theorem extract_imports_by_pattern (read_text : Path → result string)
    (file_path : Path) (lang content : string) :
  read_text file_path = Ok content →
  extract_imports read_text file_path lang
  = Ok (concat ((λ pattern, m_group1 <$> finditer pattern content)
                  <$> patterns_of lang))
  ∧ ∀ pattern, increasing (m_start <$> finditer pattern content).
Proof.
  intros Hread. split; [|intros pattern; apply finditer_increasing].
  rewrite (extract_imports_Ok _ _ _ _ Hread). f_equal.
  unfold all_matches. induction (patterns_of lang) as [|p ps IH]; simpl; [done|].
  by rewrite fmap_app, IH.
Qed.

Lemma extract_imports_by_pattern_witness :
  extract_imports (ToyFS.read_text project3) "/p/src/lib/c.ts" "ts"
  = Ok (concat ((λ pattern,
                   m_group1 <$> finditer pattern
                     "import a from '../a'; import x from '@/lib/index'")
                  <$> patterns_of "ts"))
  ∧ ∀ pattern,
      increasing
        (m_start <$> finditer pattern
           "import a from '../a'; import x from '@/lib/index'").
Proof.
  apply (extract_imports_by_pattern (ToyFS.read_text project3)
           "/p/src/lib/c.ts" "ts").
  reflexivity.
Defined.

(** C5, as the specification words it, fails: a [require] call that comes
    before an [import ... from] statement is reported after it. *)
Lemma extract_imports_not_in_text_order :
  extract_imports (λ _, Ok sample_ts) "/p/x.ts" "ts" = Ok ["./b"; "./a"]
  ∧ imports_in_text_order sample_ts "ts" = ["./a"; "./b"]
  ∧ extract_imports (λ _, Ok sample_ts) "/p/x.ts" "ts"
    ≠ Ok (imports_in_text_order sample_ts "ts").
Proof. vm_compute. split_and!; [done | done | by intros [=]]. Qed.

(** C6. [extract_imports] never raises: it returns a list for every file
    and ecosystem tag, and the empty list when reading the file raises. *)
Theorem extract_imports_never_raises (read_text : Path → result string)
    (file_path : Path) (lang : string) :
  ∃ imports,
    extract_imports read_text file_path lang = Ok imports
    ∧ ∀ e, read_text file_path = Raise e → imports = [].
Proof.
  unfold extract_imports, extract_try.
  destruct (read_text file_path) as [content|e]; simpl.
  - eexists. split; [done|]. by intros e [=].
  - exists []. by split.
Qed.

Example extract_imports_unreadable :
  extract_imports (ToyFS.read_text project3) "/p/src/missing.ts" "ts" = Ok [].
Proof. reflexivity. Qed.

(** ** The graph builder on a file without resolved imports *)


Example build_project3 :
  ToyFS.build_dependency_graph project3 "/p" ["ts"; "js"]
  = Ok [("/p/src/a.ts", ["/p/src/b.ts"]);
        ("/p/src/b.ts", ["/p/src/lib/c.ts"]);
        ("/p/src/lib/c.ts", ["/p/src/a.ts"; "/p/src/lib/index.js"])].
Proof. vm_compute. reflexivity. Qed.

(** ** A graph without a recorded cycle is acyclic *)

Section NoCycle.
Variable graph : Graph.

Lemma prefix_nil_inv (l1 l2 : list Cycle) : l1 `prefix_of` l2 → l2 = [] → l1 = [].
Proof. intros [k ->] Hnil. by apply app_eq_nil in Hnil as [-> _]. Qed.

Lemma finished_reach (st : dfs_state) (m x : Node) :
  (∀ m t, finished st m → edge graph m t → finished st t) →
  finished st m → rtc (edge graph) m x → finished st x.
Proof.
  intros Hclosed Hm Hreach. induction Hreach as [|a b c Hab _ IH]; [done|].
  apply IH. by eapply Hclosed.
Qed.

Lemma tc_first_step (x y : Node) :
  tc (edge graph) x y → ∃ t, edge graph x t ∧ rtc (edge graph) t y.
Proof.
  intros [a b Hab|a b c Hab Hbc].
  - exists b. split; [done | apply rtc_refl].
  - exists b. split; [done | by apply tc_rtc].
Qed.

Lemma dfs_loop_no_cycle (fuel : nat) (node : Node) (p : list Node) :
  (∀ t st st', dfs_inv graph st → t ∉ visited st → t ∈ graph_nodes graph →
               (∀ x, last (path st) = Some x → edge graph x t) →
               size (unvisited graph st) < fuel →
               dfs fuel graph t st = Ok st' →
               no_cycle_inv graph st → no_cycle_inv graph st') →
  ∀ ns st st', dfs_inv graph st → path st = p ++ [node] →
               (∀ t, t ∈ ns → edge graph node t) →
               size (unvisited graph st) < fuel →
               for_each (dfs_visit (dfs fuel graph)) ns st = Ok st' →
               no_cycle_inv graph st →
               no_cycle_inv graph st'
               ∧ (cycles st' = [] → ∀ t, t ∈ ns → finished st' t).
Proof.
  intros Hrec ns. induction ns as [|t ns IH];
    intros st st' Hinv Hp Hedges Hfuel Hrun Hnc.
  - injection Hrun as <-. split; [done|]. by intros _ t ?%elem_of_nil.
  - rewrite for_each_cons in Hrun. apply bind_Ok in Hrun as (st1 & Hstep & Hrest).
    assert (Het : edge graph node t) by (apply Hedges; left).
    assert (dfs_frame graph st st1 ∧ no_cycle_inv graph st1
            ∧ (cycles st1 = [] → finished st1 t)) as (Hf1 & Hnc1 & Hfin1).
    { unfold dfs_visit in Hstep.
      destruct (decide (t ∉ visited st)) as [Hnew|Hold].
      - assert (∀ x, last (path st) = Some x → edge graph x t) as Hlast.
        { intros x. rewrite Hp, last_snoc. by intros [= <-]. }
        assert (t ∈ graph_nodes graph) as Hnode by (by eapply edge_target_node).
        destruct (dfs_spec graph fuel t st Hinv Hnew Hnode Hlast Hfuel)
          as (st1' & Hr & Hf & Hv).
        rewrite Hr in Hstep. injection Hstep as <-.
        split; [done|]. split; [by eapply Hrec|].
        intros _. split; [done|]. destruct Hf as (_ & _ & -> & _).
        intros Hact. by apply Hnew, (inv_visited _ _ Hinv), (inv_stack _ _ Hinv).
      - apply dec_stable in Hold.
        destruct (decide (t ∈ rec_stack st)) as [Hact|Hdone].
        + destruct (record_cycle_spec graph p node t st Hinv Hp Het Hact)
            as (st1' & Hr & Hf & Hv & _).
          rewrite Hr in Hstep. injection Hstep as <-.
          assert (cycles st1' ≠ []) as Hne.
          { unfold record_cycle in Hr. apply bind_Ok in Hr as (i & _ & [= <-]).
            simpl. by destruct (cycles st). }
          split; [done|]. split; [by intros ?|by intros ?].
        + injection Hstep as <-. split; [by apply dfs_frame_refl|].
          split; [done|]. by intros _. }
    pose proof Hf1 as (Hinv1 & Hp1 & Hr1 & Hsub1 & Hc1).
    destruct (IH st1 st') as [Hnc' Hfin']; try done.
    + congruence.
    + intros t' Ht'. apply Hedges. by right.
    + eapply Nat.le_lt_trans; [by apply unvisited_mono | done].
    + split; [done|]. intros Hnil t' [->|Ht']%elem_of_cons; [|by apply Hfin'].
      destruct (dfs_loop_spec graph (dfs fuel graph) fuel node p
                  (dfs_spec graph fuel) ns st1)
        as (st2 & Hrun2 & (_ & _ & Hr2 & Hsub2 & Hc2) & _); try done.
      * congruence.
      * intros t' Ht'. apply Hedges. by right.
      * eapply Nat.le_lt_trans; [by apply unvisited_mono | done].
      * rewrite Hrun2 in Hrest. injection Hrest as <-.
        destruct Hfin1 as [Hv Hr]; [by eapply prefix_nil_inv|].
        split; [set_solver | by rewrite Hr2].
Qed.

Lemma dfs_no_cycle (fuel : nat) (node : Node) (st st' : dfs_state) :
  dfs_inv graph st → node ∉ visited st → node ∈ graph_nodes graph →
  (∀ x, last (path st) = Some x → edge graph x node) →
  size (unvisited graph st) < fuel →
  dfs fuel graph node st = Ok st' →
  no_cycle_inv graph st → no_cycle_inv graph st'.
Proof.
  revert node st st'. induction fuel as [|fuel IH];
    intros node st st' Hinv Hnew Hnode Hlast Hfuel Hrun Hnc; [lia|].
  pose proof (dfs_enter_inv graph node st Hinv Hnew Hnode Hlast) as Hinv1.
  assert (size (unvisited graph (dfs_enter node st)) < fuel) as Hfuel1.
  { pose proof (unvisited_enter graph node st Hnode Hnew). lia. }
  assert (Hnp : node ∉ path st) by (intros ?; by apply Hnew, (inv_visited _ _ Hinv)).
  assert (Hnr : node ∉ rec_stack st) by (by rewrite (inv_stack _ _ Hinv)).
  rewrite dfs_S in Hrun. apply bind_Ok in Hrun as (st2 & Hloop & Hleave).
  destruct (dfs_loop_spec graph (dfs fuel graph) fuel node (path st)
              (dfs_spec graph fuel) (graph_get graph node) (dfs_enter node st))
    as (st2' & Hloop' & (Hinv2 & Hp2 & Hr2 & Hsub2 & Hc2) & _); try done.
  rewrite Hloop' in Hloop. injection Hloop as ->.
  destruct (dfs_loop_no_cycle fuel node (path st) IH (graph_get graph node)
              (dfs_enter node st) st2) as [Hnc2 Hfin2]; try done.
  { intros Hnil. simpl in Hnil. destruct (Hnc Hnil) as [Hcl Hac].
    unfold finished, dfs_enter. simpl. split.
    - intros m t [Hm Hmr] Hmt.
      destruct (Hcl m t) as [Ht Htr]; [split; set_solver | done |].
      split; [set_solver|]. intros [->%elem_of_singleton | ?]%elem_of_union; done.
    - intros m [Hm Hmr]. apply Hac. split; set_solver. }
  simpl in Hp2, Hr2, Hsub2, Hc2.
  unfold dfs_leave in Hleave. rewrite Hp2, list_pop_snoc in Hleave.
  unfold set_remove in Hleave.
  rewrite decide_True in Hleave by (rewrite Hr2; set_solver).
  simpl in Hleave. injection Hleave as <-.
  assert (Hrs : rec_stack st2 ∖ {[node]} = rec_stack st)
    by (rewrite Hr2; set_solver).
  intros Hnil. simpl in Hnil. destruct (Hnc2 Hnil) as [Hcl Hac].
  specialize (Hfin2 Hnil).
  assert (∀ m, finished {| cycles := cycles st2; visited := visited st2;
                           rec_stack := rec_stack st2 ∖ {[node]};
                           path := path st |} m
               → m = node ∨ finished st2 m) as Hcase.
  { unfold finished. simpl. rewrite Hrs, Hr2. intros m [Hm Hmr].
    destruct (decide (m = node)) as [->|Hne]; [by left|]. right.
    split; [done | set_solver]. }
  assert (∀ m, finished st2 m →
               finished {| cycles := cycles st2; visited := visited st2;
                           rec_stack := rec_stack st2 ∖ {[node]};
                           path := path st |} m) as Hup.
  { unfold finished. simpl. rewrite Hrs, Hr2. intros m [Hm Hmr].
    split; [done | set_solver]. }
  split.
  - intros m t [->|Hm]%Hcase Hmt; apply Hup; [by apply Hfin2 | by eapply Hcl].
  - intros m [->|Hm]%Hcase Hcyc; [|by eapply Hac].
    apply tc_first_step in Hcyc as (t & Hnt & Hreach).
    assert (finished st2 node) as [_ Hbad].
    { eapply finished_reach; [done | by apply Hfin2 | done]. }
    apply Hbad. rewrite Hr2. set_solver.
Qed.

Lemma find_cycles_loop_no_cycle (ks : list Node) (st st' : dfs_state) :
  dfs_inv graph st → path st = [] → (∀ k, k ∈ ks → k ∈ graph_nodes graph) →
  for_each (dfs_start graph) ks st = Ok st' →
  no_cycle_inv graph st → no_cycle_inv graph st'.
Proof.
  revert st. induction ks as [|k ks IH]; intros st Hinv Hp Hks Hrun Hnc.
  - by injection Hrun as <-.
  - rewrite for_each_cons in Hrun. apply bind_Ok in Hrun as (st1 & Hstep & Hrest).
    assert (dfs_frame graph st st1 ∧ no_cycle_inv graph st1) as [Hf1 Hnc1].
    { unfold dfs_start in Hstep. destruct (decide (k ∉ visited st)) as [Hnew|Hold].
      - assert (k ∈ graph_nodes graph) as Hk by (apply Hks; left).
        assert (∀ x, last (path st) = Some x → edge graph x k) as Hlast
          by (by rewrite Hp).
        assert (size (unvisited graph st) < S (length (graph_nodes graph)))
          as Hfuel by (pose proof (unvisited_bound graph st); lia).
        destruct (dfs_spec graph _ k st Hinv Hnew Hk Hlast Hfuel)
          as (st1' & Hr & Hf & _).
        rewrite Hr in Hstep. injection Hstep as <-.
        split; [done | by eapply dfs_no_cycle].
      - injection Hstep as <-. split; [by apply dfs_frame_refl | done]. }
    destruct Hf1 as (Hinv1 & Hp1 & _).
    apply (IH st1); try done; [congruence|].
    intros k' Hk'. apply Hks. by right.
Qed.

Lemma find_cycles_nil_acyclic :
  find_cycles graph = Ok [] → acyclic graph.
Proof.
  destruct (find_cycles_spec graph) as (st & Hrun & Hfc & Hinv & Hp & Hr & Hv).
  rewrite Hfc. intros [= Hnil] n Hcyc.
  assert (no_cycle_inv graph st) as Hnc.
  { eapply find_cycles_loop_no_cycle; [apply dfs_init_inv | done | | done |].
    - apply key_graph_nodes.
    - intros _. unfold finished. simpl. split; [set_solver|].
      intros m [?%not_elem_of_empty _]. done. }
  destruct (Hnc Hnil) as [_ Hac]. apply (Hac n); [|done].
  split; [|by rewrite Hr]. apply Hv. left.
  apply tc_first_step in Hcyc as (t & Hnt & _). by eapply edge_source_key.
Qed.

End NoCycle.

(** ** Normal forms and rotations *)

Lemma normalize_cycle_shape (c : Cycle) (nf : list Node) :
  normalize_cycle c = Ok nf →
  ∃ l1 m l2 x, c = (l1 ++ m :: l2) ++ [x] ∧ (m ∉ l1)
               ∧ py_min (l1 ++ m :: l2) = Ok m
               ∧ nf = m :: l2 ++ l1 ++ [m].
Proof.
  induction c as [|x l _] using rev_ind; intros Hnf; [done|].
  assert (l ≠ []) as Hl.
  { intros ->. unfold normalize_cycle in Hnf.
    rewrite removelast_last in Hnf. done. }
  destruct (py_min_spec l Hl) as (m & Hmin & Hin & _).
  apply list_elem_of_split_l in Hin as (l1 & l2 & Heq & Hm1).
  exists l1, m, l2, x. rewrite Heq in *.
  rewrite normalize_cycle_at in Hnf by done. by injection Hnf as <-.
Qed.

Lemma rotation_normal_form (l k : list Node) (x y : Node) :
  NoDup l → l ≠ [] → rotation l k →
  ∃ nf, normalize_cycle (l ++ [x]) = Ok nf ∧ normalize_cycle (k ++ [y]) = Ok nf.
Proof.
  intros Hnd Hne (a & b & -> & ->). by apply normalize_cycle_rotation.
Qed.

Lemma normal_form_rotation (c1 c2 : Cycle) (nf : list Node) :
  normalize_cycle c1 = Ok nf → normalize_cycle c2 = Ok nf →
  rotation (removelast c1) (removelast c2).
Proof.
  intros (l1 & m & l2 & x & -> & _ & _ & ->)%normalize_cycle_shape
         (k1 & m' & k2 & y & -> & _ & _ & Heq)%normalize_cycle_shape.
  rewrite !removelast_last. injection Heq as <- Heq.
  rewrite !app_assoc in Heq. apply app_inj_tail in Heq as [Heq _].
  apply app_eq_inv in Heq as [(d & -> & ->)|(d & -> & ->)].
  - exists (l1 ++ m :: k2), d. split; by rewrite <- ?app_assoc.
  - exists d, (k1 ++ m :: l2). split; by rewrite <- ?app_assoc.
Qed.

Lemma normalize_cycle_short (c : Cycle) :
  length c < 2 → normalize_cycle c = Raise ValueError.
Proof. destruct c as [|x [|y c]]; simpl; [done | done | lia]. Qed.

Lemma normalize_cycle_long (c : Cycle) :
  2 ≤ length c → ∃ nf, normalize_cycle c = Ok nf.
Proof.
  destruct c as [|x c]; simpl; [lia|].
  destruct (decide (c = [])) as [->|Hne]; simpl; [lia|]. intros _.
  rewrite (app_removelast_last "" Hne). apply normalize_cycle_total.
Qed.

(** ** The de-duplication loop *)

Lemma dedup_loop_spec (cs : list Cycle) (acc acc' : list Cycle)
    (seen seen' : gset (list Node)) :
  for_each dedup_step cs (acc, seen) = Ok (acc', seen') →
  ∃ kept, acc' = acc ++ kept
          ∧ kept `sublist_of` cs
          ∧ NoDup (normalize_cycle <$> kept)
          ∧ (∀ u, u ∈ kept → ∃ nf, normalize_cycle u = Ok nf ∧ nf ∉ seen)
          ∧ (∀ c, c ∈ cs → ∃ nf, normalize_cycle c = Ok nf
                               ∧ (nf ∈ seen ∨ ∃ u, u ∈ kept
                                             ∧ normalize_cycle u = Ok nf))
          ∧ (seen = ∅ → head kept = head cs).
Proof.
  revert acc seen. induction cs as [|c cs IH]; intros acc seen.
  - intros [= <- <-]. exists []. rewrite app_nil_r.
    split_and!; try done; [constructor | by intros ? ?%elem_of_nil..].
  - rewrite for_each_cons. intros ([acc1 seen1] & Hstep & Hrest)%bind_Ok.
    unfold dedup_step in Hstep. apply bind_Ok in Hstep as (nf & Hnf & Hstep).
    destruct (decide (nf ∉ seen)) as [Hnew|Hold].
    + injection Hstep as <- <-.
      destruct (IH _ _ Hrest) as (kept & -> & Hsub & Hnd & Hkept & Hall & _).
      exists (c :: kept). rewrite <- app_assoc. split_and!; try done.
      * by apply sublist_skip.
      * rewrite fmap_cons. constructor; [|done].
        intros (u & Hu & Hin)%list_elem_of_fmap.
        destruct (Hkept u Hin) as (nf' & Hnf' & Hfresh).
        rewrite Hnf in Hu. rewrite Hnf' in Hu. injection Hu as <-. set_solver.
      * intros u [->|Hu]%elem_of_cons; [by exists nf|].
        destruct (Hkept u Hu) as (nf' & Hnf' & Hfresh).
        exists nf'. split; [done | set_solver].
      * intros c' [->|Hc']%elem_of_cons.
        -- exists nf. split; [done|]. right. exists c. split; [left | done].
        -- destruct (Hall c' Hc') as (nf' & Hnf' & [Hs|(u & Hu & Hun)]).
           ++ exists nf'. split; [done|].
              apply elem_of_union in Hs as [->%elem_of_singleton|Hs];
                [|by left].
              right. exists c. split; [left | done].
           ++ exists nf'. split; [done|]. right. exists u. split; [by right|done].
    + apply dec_stable in Hold. injection Hstep as <- <-.
      destruct (IH _ _ Hrest) as (kept & -> & Hsub & Hnd & Hkept & Hall & _).
      exists kept. split_and!; try done.
      * by apply sublist_cons.
      * intros c' [->|Hc']%elem_of_cons; [|by apply Hall].
        exists nf. split; [done | by left].
      * intros ->. set_solver.
Qed.

Lemma dedup_loop_fresh (us acc : list Cycle) (seen : gset (list Node)) :
  (∀ u, u ∈ us → ∃ nf, normalize_cycle u = Ok nf ∧ nf ∉ seen) →
  NoDup (normalize_cycle <$> us) →
  ∃ seen', for_each dedup_step us (acc, seen) = Ok (acc ++ us, seen').
Proof.
  revert acc seen. induction us as [|u us IH]; intros acc seen Hfresh Hnd.
  - exists seen. by rewrite app_nil_r.
  - rewrite fmap_cons in Hnd. apply NoDup_cons in Hnd as [Hu Hnd].
    destruct (Hfresh u) as (nf & Hnf & Hnew); [left|].
    destruct (IH (acc ++ [u]) ({[nf]} ∪ seen)) as (seen' & Hrun); [|done|].
    + intros u' Hu'. destruct (Hfresh u') as (nf' & Hnf' & Hnew'); [by right|].
      exists nf'. split; [done|].
      intros [->%elem_of_singleton|?]%elem_of_union; [|done].
      apply Hu. replace (normalize_cycle u) with (normalize_cycle u')
        by congruence.
      by apply list_elem_of_fmap_2.
    + exists seen'. rewrite for_each_cons.
      assert (dedup_step (acc, seen) u = Ok (acc ++ [u], {[nf]} ∪ seen)) as ->.
      { unfold dedup_step. rewrite Hnf. simpl. by rewrite decide_True. }
      simpl. by rewrite Hrun, <- app_assoc.
Qed.

Lemma dedup_loop_total (cs acc : list Cycle) (seen : gset (list Node)) :
  Forall (λ c, 2 ≤ length c) cs →
  ∃ acc' seen', for_each dedup_step cs (acc, seen) = Ok (acc', seen').
Proof.
  intros Hall. revert acc seen.
  induction Hall as [|c cs Hc _ IH]; intros acc seen; [by eexists _, _|].
  destruct (normalize_cycle_long c Hc) as [nf Hnf].
  rewrite for_each_cons.
  assert (∃ a, dedup_step (acc, seen) c = Ok a) as [[acc1 seen1] ->].
  { unfold dedup_step. rewrite Hnf. simpl.
    destruct (decide (nf ∉ seen)); by eexists. }
  simpl. apply IH.
Qed.

(** ** Further results on the cycle finder and the de-duplication *)

Lemma acyclic_find_cycles_nil (graph : Graph) :
  acyclic graph → find_cycles graph = Ok [].
Proof.
  intros Hacyclic.
  destruct (find_cycles_spec graph) as (st & _ & -> & Hinv & _).
  pose proof (inv_cycles _ _ Hinv) as Hall.
  destruct (cycles st) as [|c cs]; [done|].
  apply Forall_cons in Hall as [(n & Hn)%elementary_cycle_tc _].
  by destruct (Hacyclic n).
Qed.


(** X2. The normal form does not depend on where a cycle without repeated
    nodes is started, nor on the closing element of the list: rotations
    have the same normal form. *)
Theorem rotations_share_normal_form (l k : list Node) (x y : Node) :
  NoDup l → l ≠ [] → rotation l k →
  ∃ nf, normalize_cycle (l ++ [x]) = Ok nf ∧ normalize_cycle (k ++ [y]) = Ok nf.
Proof. apply rotation_normal_form. Qed.

Lemma rotations_share_normal_form_witness :
  ∃ nf, normalize_cycle (["c"; "d"; "a"; "b"] ++ ["c"]) = Ok nf
        ∧ normalize_cycle (["a"; "b"; "c"; "d"] ++ ["a"]) = Ok nf.
Proof.
  apply (rotations_share_normal_form ["c"; "d"; "a"; "b"] ["a"; "b"; "c"; "d"]).
  - repeat (constructor; [set_solver|]). constructor.
  - done.
  - by exists ["c"; "d"], ["a"; "b"].
Defined.

(** X3. Conversely, two cycles with the same normal form are rotations of
    one another, so the de-duplication never merges two different cycles. *)
Theorem shared_normal_form_rotation (c1 c2 : Cycle) (nf : list Node) :
  normalize_cycle c1 = Ok nf → normalize_cycle c2 = Ok nf →
  rotation (removelast c1) (removelast c2).
Proof. apply normal_form_rotation. Qed.

Lemma shared_normal_form_rotation_witness :
  rotation (removelast ["b"; "c"; "a"; "b"]) (removelast ["c"; "a"; "b"; "c"]).
Proof.
  apply (shared_normal_form_rotation ["b"; "c"; "a"; "b"] ["c"; "a"; "b"; "c"]
           ["a"; "b"; "c"; "a"]); reflexivity.
Defined.

(** X4. A normal form is its own normal form. *)
Theorem normalize_cycle_idempotent (c : Cycle) (nf : list Node) :
  normalize_cycle c = Ok nf → normalize_cycle nf = Ok nf.
Proof.
  intros (l1 & m & l2 & x & -> & Hm & Hmin & ->)%normalize_cycle_shape.
  change (m :: l2 ++ l1 ++ [m]) with ([] ++ m :: l2 ++ l1 ++ [m]).
  rewrite (app_assoc l2 l1 [m]).
  change ([] ++ m :: (l2 ++ l1) ++ [m]) with (([] ++ m :: (l2 ++ l1)) ++ [m]).
  rewrite normalize_cycle_at.
  - done.
  - eapply py_min_perm; [|done]. simpl.
    rewrite <- Permutation_middle. constructor. apply Permutation_app_comm.
  - by intros ?%elem_of_nil.
Qed.

Lemma normalize_cycle_idempotent_witness :
  normalize_cycle ["a"; "b"; "c"; "a"] = Ok ["a"; "b"; "c"; "a"].
Proof.
  apply (normalize_cycle_idempotent ["c"; "a"; "b"; "c"]). reflexivity.
Defined.

(** X5. The normal form of a list is computed exactly when the list has two
    or more elements; on a shorter list [min] of the empty sequence raises
    [ValueError].  The normal form has the length of the list, it is the
    list without its closing element read from its smallest node, and it
    starts and ends with that node. *)
Theorem normalize_cycle_result (c : Cycle) :
  (length c < 2 → normalize_cycle c = Raise ValueError)
  ∧ (2 ≤ length c →
     ∃ nf m, normalize_cycle c = Ok nf
             ∧ length nf = length c
             ∧ rotation (removelast c) (removelast nf)
             ∧ py_min (removelast c) = Ok m
             ∧ head nf = Some m ∧ last nf = Some m).
Proof.
  split; [apply normalize_cycle_short|]. intros Hlen.
  destruct (normalize_cycle_long c Hlen) as [nf Hnf].
  pose proof Hnf as (l1 & m & l2 & x & -> & Hm & Hmin & ->)%normalize_cycle_shape.
  exists (m :: l2 ++ l1 ++ [m]), m. split; [done|]. split_and!.
  - simpl. rewrite ?length_app. simpl. rewrite ?length_app. simpl. lia.
  - rewrite removelast_last.
    change (m :: l2 ++ l1 ++ [m]) with ((m :: l2) ++ l1 ++ [m]).
    rewrite app_assoc, removelast_last. by exists l1, (m :: l2).
  - by rewrite removelast_last.
  - done.
  - change (m :: l2 ++ l1 ++ [m]) with ((m :: l2) ++ l1 ++ [m]).
    by rewrite app_assoc, last_snoc.
Qed.

(** X6. The de-duplication keeps cycles of its input in their order and in
    their original form, the first cycle among them; the kept cycles have
    pairwise different normal forms, and every input cycle has the normal
    form of a kept one. *)
Theorem unique_cycles_spec (cs us : list Cycle) :
  unique_cycles cs = Ok us →
  us `sublist_of` cs
  ∧ head us = head cs
  ∧ NoDup (normalize_cycle <$> us)
  ∧ (∀ u, u ∈ us → ∃ nf, normalize_cycle u = Ok nf)
  ∧ (∀ c, c ∈ cs → ∃ u, u ∈ us ∧ normalize_cycle u = normalize_cycle c).
Proof.
  unfold unique_cycles. intros ([acc seen] & Hrun & [= <-])%bind_Ok.
  apply dedup_loop_spec in Hrun
    as (kept & -> & Hsub & Hnd & Hkept & Hall & Hhead). simpl.
  split_and!; try done.
  - by apply Hhead.
  - intros u (nf & Hnf & _)%Hkept. by exists nf.
  - intros c (nf & Hnf & [?%not_elem_of_empty|(u & Hu & Hun)])%Hall; [done|].
    exists u. split; [done | congruence].
Qed.

Lemma unique_cycles_spec_witness :
  [["a"; "b"; "a"]; ["c"; "c"]] `sublist_of`
    [["a"; "b"; "a"]; ["b"; "a"; "b"]; ["c"; "c"]]
  ∧ head [["a"; "b"; "a"]; ["c"; "c"]]
    = head [["a"; "b"; "a"]; ["b"; "a"; "b"]; ["c"; "c"]]
  ∧ NoDup (normalize_cycle <$> [["a"; "b"; "a"]; ["c"; "c"]])
  ∧ (∀ u, u ∈ [["a"; "b"; "a"]; ["c"; "c"]] → ∃ nf, normalize_cycle u = Ok nf)
  ∧ (∀ c, c ∈ [["a"; "b"; "a"]; ["b"; "a"; "b"]; ["c"; "c"]] →
          ∃ u, u ∈ [["a"; "b"; "a"]; ["c"; "c"]]
               ∧ normalize_cycle u = normalize_cycle c).
Proof.
  apply (unique_cycles_spec [["a"; "b"; "a"]; ["b"; "a"; "b"]; ["c"; "c"]]).
  vm_compute. reflexivity.
Defined.

(** X7. De-duplicating a de-duplicated list changes nothing. *)
Theorem unique_cycles_idempotent (cs us : list Cycle) :
  unique_cycles cs = Ok us → unique_cycles us = Ok us.
Proof.
  unfold unique_cycles. intros ([acc seen] & Hrun & [= <-])%bind_Ok.
  apply dedup_loop_spec in Hrun as (kept & -> & _ & Hnd & Hkept & _). simpl.
  destruct (dedup_loop_fresh kept [] ∅ Hkept Hnd) as [seen' ->]. done.
Qed.

Lemma unique_cycles_idempotent_witness :
  unique_cycles [["a"; "b"; "a"]; ["c"; "c"]] = Ok [["a"; "b"; "a"]; ["c"; "c"]].
Proof.
  apply (unique_cycles_idempotent
           [["a"; "b"; "a"]; ["b"; "a"; "b"]; ["c"; "c"]]).
  vm_compute. reflexivity.
Defined.



(** ** The dictionary of sets *)

Lemma elem_of_set_add (x v : Node) (s : list Node) :
  x ∈ set_add v s ↔ x ∈ s ∨ x = v.
Proof.
  unfold set_add. destruct (decide (v ∈ s)) as [Hv|Hv].
  - split; [by left | by intros [?| ->]].
  - rewrite elem_of_app, list_elem_of_singleton. done.
Qed.

Lemma set_add_NoDup (v : Node) (s : list Node) :
  NoDup s → NoDup (set_add v s).
Proof.
  intros Hs. unfold set_add. destruct (decide (v ∈ s)) as [Hv|Hv]; [done|].
  apply NoDup_app. split_and!; [done| |apply NoDup_singleton].
  by intros x Hx ->%list_elem_of_singleton.
Qed.

Lemma set_add_not_nil (v : Node) (s : list Node) : set_add v s ≠ [].
Proof.
  unfold set_add. destruct (decide (v ∈ s)) as [Hv|Hv].
  - intros ->. by apply elem_of_nil in Hv.
  - by destruct s.
Qed.

Lemma set_add_idemp (v : Node) (s : list Node) :
  set_add v (set_add v s) = set_add v s.
Proof.
  unfold set_add at 1. rewrite decide_True; [done|].
  apply elem_of_set_add. by right.
Qed.

Lemma graph_add_get_eq (graph : Graph) (k v : Node) :
  graph_get (graph_add graph k v) k = set_add v (graph_get graph k).
Proof.
  unfold graph_get. induction graph as [|[k' s] graph IH]; simpl.
  - by rewrite decide_True.
  - destruct (decide (k' = k)) as [->|Hne]; simpl.
    + by rewrite decide_True.
    + by rewrite decide_False.
Qed.

Lemma graph_add_get_ne (graph : Graph) (k v a : Node) :
  a ≠ k → graph_get (graph_add graph k v) a = graph_get graph a.
Proof.
  intros Hne. unfold graph_get. induction graph as [|[k' s] graph IH]; simpl.
  - by rewrite decide_False.
  - destruct (decide (k' = k)) as [->|Hne']; simpl.
    + by rewrite !decide_False.
    + destruct (decide (k' = a)); [done | apply IH].
Qed.

Lemma graph_add_edge_iff (graph : Graph) (k v a b : Node) :
  edge (graph_add graph k v) a b ↔ edge graph a b ∨ (a = k ∧ b = v).
Proof.
  unfold edge. destruct (decide (a = k)) as [->|Hne].
  - rewrite graph_add_get_eq, elem_of_set_add. naive_solver.
  - rewrite graph_add_get_ne by done. naive_solver.
Qed.

Lemma graph_add_keys (graph : Graph) (k v : Node) :
  (graph_add graph k v).*1
  = if decide (k ∈ graph.*1) then graph.*1 else graph.*1 ++ [k].
Proof.
  induction graph as [|[k' s] graph IH]; [done|].
  cbn [graph_add].
  destruct (decide (k' = k)) as [->|Hne]; rewrite !fmap_cons; cbn [fst].
  - rewrite decide_True; [done | left].
  - rewrite IH. destruct (decide (k ∈ graph.*1)) as [Hin|Hnin].
    + rewrite decide_True; [done | by right].
    + rewrite decide_False; [done|].
      intros [?|?]%elem_of_cons; [congruence | done].
Qed.

Lemma graph_add_wf (graph : Graph) (k v : Node) :
  graph_wf graph → graph_wf (graph_add graph k v).
Proof.
  intros [Hkeys Hsets]. split.
  - rewrite graph_add_keys. destruct (decide (k ∈ graph.*1)); [done|].
    apply NoDup_app. split_and!; [done| |apply NoDup_singleton].
    by intros x Hx ->%list_elem_of_singleton.
  - clear Hkeys. induction Hsets as [|[k' s] graph [Hs Hne] Htail IH]; simpl.
    + repeat constructor; [by intros ?%elem_of_nil | done].
    + destruct (decide (k' = k)); constructor; simpl; try done.
      split; [by apply set_add_NoDup | apply set_add_not_nil].
Qed.

Lemma graph_add_idemp (graph : Graph) (k v : Node) :
  graph_add (graph_add graph k v) k v = graph_add graph k v.
Proof.
  induction graph as [|[k' s] graph IH]; simpl.
  - rewrite decide_True by done. unfold set_add.
    rewrite decide_True; [done | left].
  - destruct (decide (k' = k)) as [->|Hne]; simpl.
    + by rewrite decide_True, set_add_idemp.
    + by rewrite decide_False, IH.
Qed.

Lemma graph_wf_key_edge (graph : Graph) (k : Node) :
  graph_wf graph → k ∈ graph.*1 ↔ ∃ b, edge graph k b.
Proof.
  intros [Hkeys Hsets]. split; [|intros [b Hb]; by eapply edge_source_key].
  intros ([k' s] & -> & Hin)%list_elem_of_fmap. simpl.
  unfold edge, graph_get. rewrite (dict_get_NoDup graph k' s Hkeys Hin). simpl.
  eapply Forall_forall in Hsets as [_ Hne]; [|done]. simpl in Hne.
  destruct s as [|b s]; [done|]. exists b. left.
Qed.

(** X10. Adding an edge to the dictionary of sets adds exactly that edge:
    afterwards [a → b] is an edge if and only if it was one before or it is
    the edge added.  Adding it a second time changes nothing, and the
    dictionary keeps its keys and its set elements without repetition. *)
Theorem graph_add_spec (graph : Graph) (k v : Node) :
  (∀ a b, edge (graph_add graph k v) a b ↔ edge graph a b ∨ (a = k ∧ b = v))
  ∧ graph_add (graph_add graph k v) k v = graph_add graph k v
  ∧ (graph_wf graph → graph_wf (graph_add graph k v)).
Proof.
  split_and!.
  - intros a b. apply graph_add_edge_iff.
  - apply graph_add_idemp.
  - apply graph_add_wf.
Qed.

(** ** The graph builder *)

Section BuilderCorrect.
Variable parent : Path → Path.
Variable joinpath : Path → string → Path.
Variable resolve : Path → result Path.
Variable path_of_str : string → Path.
Variable path_exists : Path → bool.
Variable is_file : Path → bool.
Variable parts : Path → list string.
Variable suffix : Path → string.
Variable rglob : Path → string → list Path.
Variable read_text : Path → result string.

Local Abbreviation resolve_import' :=
  (resolve_import parent joinpath resolve path_of_str path_exists is_file).
Local Abbreviation add_import' :=
  (add_import parent joinpath resolve path_of_str path_exists is_file).
Local Abbreviation scan_file' :=
  (scan_file parent joinpath resolve path_of_str path_exists is_file parts
     suffix read_text).
Local Abbreviation build' :=
  (build_dependency_graph parent joinpath resolve path_of_str path_exists
     is_file parts suffix rglob read_text).
Local Abbreviation import_edge' :=
  (import_edge parent joinpath resolve path_of_str path_exists is_file suffix
     read_text).
Local Abbreviation scanned' := (scanned parts rglob).
Local Abbreviation regular_file' := (regular_file path_exists is_file).

Lemma extract_imports_total (file_path : Path) (lang : string) :
  ∃ imports, extract_imports read_text file_path lang = Ok imports
             ∧ ∀ e, read_text file_path = Raise e → imports = [].
Proof.
  unfold extract_imports, extract_try.
  destruct (read_text file_path) as [content|e]; simpl.
  - eexists. split; [done|]. by intros e [=].
  - exists []. by split.
Qed.

Lemma resolve_import_Some (imp : string) (from_file root c : Path) :
  resolve_import' imp from_file root = Ok (Some c) →
  (startswith imp "." = true ∨ startswith imp "@/" = true)
  ∧ ∃ resolved ext,
      resolve (import_base parent joinpath imp from_file root) = Ok resolved
      ∧ ext ∈ resolve_suffixes
      ∧ c = candidate path_of_str resolved ext
      ∧ regular_file' c = true.
Proof.
  unfold resolve_import, import_base.
  assert (∀ resolved,
            try_suffixes path_of_str path_exists is_file resolved
              resolve_suffixes = Some c →
            ∃ ext, ext ∈ resolve_suffixes
                   ∧ c = candidate path_of_str resolved ext
                   ∧ regular_file' c = true) as Htry.
  { intros resolved (before & ext & after & Heq & -> & Hc & _)%try_suffixes_Some.
    exists ext. split; [|done]. rewrite Heq. set_solver. }
  destruct (startswith imp ".") eqn:Hdot; simpl.
  - intros (resolved & Hres & [= Hc])%bind_Ok. split; [by left|].
    destruct (Htry _ Hc) as (ext & ? & ? & ?). by exists resolved, ext.
  - destruct (startswith imp "@/") eqn:Halias; simpl; [|done].
    intros (resolved & Hres & [= Hc])%bind_Ok. split; [by right|].
    destruct (Htry _ Hc) as (ext & ? & ? & ?). by exists resolved, ext.
Qed.

Lemma add_imports_spec (path file : Path) (imps : list string) (g g' : Graph) :
  for_each (add_import' path file) imps g = Ok g' →
  (∀ a b, edge g' a b ↔
          edge g a b
          ∨ (a = file ∧ ∃ imp, imp ∈ imps
                               ∧ resolve_import' imp file path = Ok (Some b)))
  ∧ (graph_wf g → graph_wf g').
Proof.
  revert g. induction imps as [|imp imps IH]; intros g.
  - intros [= <-]. split; [|done]. intros a b. split; [by left|].
    intros [?|(_ & imp & ?%elem_of_nil & _)]; done.
  - rewrite for_each_cons. intros (g1 & Hstep & Hrest)%bind_Ok.
    destruct (IH g1 Hrest) as [Hedges Hwf].
    unfold add_import in Hstep. apply bind_Ok in Hstep as (r & Hr & Hg1).
    destruct r as [c|]; injection Hg1 as <-.
    + split; [|by intros ?%(graph_add_wf _ file c)%Hwf].
      intros a b. rewrite Hedges, graph_add_edge_iff. split.
      * intros [[?|[-> ->]]|(-> & imp' & ? & ?)]; [by left | right..].
        -- split; [done|]. exists imp. split; [left | done].
        -- split; [done|]. exists imp'. split; [by right | done].
      * intros [?|(-> & imp' & [->|?]%elem_of_cons & Hres)]; [by left; left | |].
        -- rewrite Hr in Hres. injection Hres as ->. left. by right.
        -- right. split; [done|]. by exists imp'.
    + split; [|done]. intros a b. rewrite Hedges. split.
      * intros [?|(-> & imp' & ? & ?)]; [by left|]. right.
        split; [done|]. exists imp'. split; [by right | done].
      * intros [?|(-> & imp' & [->|?]%elem_of_cons & Hres)]; [by left | |].
        -- by rewrite Hr in Hres.
        -- right. split; [done|]. by exists imp'.
Qed.

Lemma scan_file_spec (path file : Path) (g g' : Graph) :
  scan_file' path g file = Ok g' →
  (∀ a b, edge g' a b ↔
          edge g a b
          ∨ (a = file ∧ skipped parts file = false ∧ import_edge' path file b))
  ∧ (graph_wf g → graph_wf g').
Proof.
  unfold scan_file. fold (skipped parts file).
  destruct (skipped parts file) eqn:Hskip.
  - intros [= <-]. split; [|done]. intros a b. split; [by left|].
    by intros [?|(_ & ? & _)].
  - fold (lang_of suffix file).
    intros (imports & Hext & Hloop)%bind_Ok.
    apply add_imports_spec in Hloop as [Hedges Hwf]. split; [|done].
    intros a b. rewrite Hedges. unfold import_edge. split.
    + intros [?|(-> & imp & ? & ?)]; [by left|]. right.
      split; [done|]. split; [done|]. by exists imports, imp.
    + intros [?|(-> & _ & imports' & imp & Hext' & ? & ?)]; [by left|]. right.
      split; [done|]. rewrite Hext in Hext'. injection Hext' as <-.
      by exists imp.
Qed.

Lemma build_loop_spec (path : Path) (files : list Path) (g g' : Graph) :
  for_each (scan_file' path) files g = Ok g' →
  (∀ a b, edge g' a b ↔
          edge g a b
          ∨ (a ∈ files ∧ skipped parts a = false ∧ import_edge' path a b))
  ∧ (graph_wf g → graph_wf g').
Proof.
  revert g. induction files as [|file files IH]; intros g.
  - intros [= <-]. split; [|done]. intros a b. split; [by left|].
    by intros [?|(?%elem_of_nil & _)].
  - rewrite for_each_cons. intros (g1 & Hstep & Hrest)%bind_Ok.
    apply scan_file_spec in Hstep as [Hedges1 Hwf1].
    destruct (IH g1 Hrest) as [Hedges Hwf]. split; [|by intros ?%Hwf1%Hwf].
    intros a b. rewrite Hedges, Hedges1. split.
    + intros [[?|(-> & ? & ?)]|(? & ? & ?)]; [by left | right..].
      * split; [left | done].
      * split; [by right | done].
    + intros [?|([->|?]%elem_of_cons & ? & ?)]; [by left; left | |].
      * left. right. done.
      * right. done.
Qed.

Lemma build_spec (path : Path) (extensions : list string) (g : Graph) :
  build' path extensions = Ok g →
  (∀ a b, edge g a b ↔ scanned' path extensions a ∧ import_edge' path a b)
  ∧ graph_wf g.
Proof.
  unfold build_dependency_graph. intros [Hedges Hwf]%build_loop_spec. split.
  - intros a b. rewrite Hedges. unfold scanned, edge. simpl. split.
    + intros [?%elem_of_nil|(? & ? & ?)]; done.
    + intros [[? ?] ?]. by right.
  - apply Hwf. split; simpl; constructor.
Qed.

(** X11. The edges of the graph that [build_dependency_graph] returns are
    exactly the pairs [(a, b)] where [a] is a file found under the root and
    not skipped, and some import extracted from [a] resolves to [b]. *)
Theorem build_edges (path : Path) (extensions : list string) (g : Graph) :
  build' path extensions = Ok g →
  ∀ a b, edge g a b ↔ scanned' path extensions a ∧ import_edge' path a b.
Proof. by intros [? _]%build_spec. Qed.

(** X12. The returned dictionary has no key twice and no empty or
    repeating set, and its keys are exactly the scanned files with at least
    one import that resolves: [len(graph)] counts those files only. *)
Theorem build_keys (path : Path) (extensions : list string) (g : Graph) :
  build' path extensions = Ok g →
  graph_wf g
  ∧ ∀ k, k ∈ g.*1 ↔ scanned' path extensions k ∧ ∃ b, import_edge' path k b.
Proof.
  intros [Hedges Hwf]%build_spec. split; [done|]. intros k.
  rewrite (graph_wf_key_edge g k Hwf). split.
  - intros [b [? ?]%Hedges]. split; [done | by exists b].
  - intros [? [b ?]]. exists b. by apply Hedges.
Qed.

(** X13. Every edge target of the returned graph is a path that exists
    and is a regular file, obtained from a relative or aliased import by
    appending one of the eight suffixes to the resolved base path. *)
Theorem build_targets_regular (path : Path) (extensions : list string)
    (g : Graph) (a b : Path) :
  build' path extensions = Ok g → edge g a b →
  regular_file' b = true
  ∧ ∃ imp resolved ext,
      (startswith imp "." = true ∨ startswith imp "@/" = true)
      ∧ resolve (import_base parent joinpath imp a path) = Ok resolved
      ∧ ext ∈ resolve_suffixes
      ∧ b = candidate path_of_str resolved ext.
Proof.
  intros [Hedges _]%build_spec [_ (imports & imp & _ & _ & Hres)]%Hedges.
  apply resolve_import_Some in Hres as (Hkind & resolved & ext & ? & ? & ? & ?).
  split; [done|]. by exists imp, resolved, ext.
Qed.



End BuilderCorrect.

Lemma build_project3_graph3 :
  ToyFS.build_dependency_graph project3 "/p" ["ts"; "js"] = Ok graph3.
Proof. vm_compute. reflexivity. Qed.

Lemma build_edges_witness :
  edge graph3 "/p/src/lib/c.ts" "/p/src/lib/index.js"
  ↔ scanned3 "/p/src/lib/c.ts"
    ∧ import_edge3 "/p/src/lib/c.ts" "/p/src/lib/index.js".
Proof.
  apply (build_edges ToyFS.parent ToyFS.joinpath ToyFS.resolve
           ToyFS.path_of_str (ToyFS.path_exists project3)
           (ToyFS.is_file project3) ToyFS.parts ToyFS.suffix
           (ToyFS.rglob project3) (ToyFS.read_text project3)
           "/p" ["ts"; "js"] graph3).
  vm_compute. reflexivity.
Defined.

Lemma build_keys_witness :
  graph_wf graph3
  ∧ ∀ k, k ∈ graph3.*1 ↔ scanned3 k ∧ ∃ b, import_edge3 k b.
Proof.
  apply (build_keys ToyFS.parent ToyFS.joinpath ToyFS.resolve
           ToyFS.path_of_str (ToyFS.path_exists project3)
           (ToyFS.is_file project3) ToyFS.parts ToyFS.suffix
           (ToyFS.rglob project3) (ToyFS.read_text project3)
           "/p" ["ts"; "js"] graph3).
  vm_compute. reflexivity.
Defined.

Lemma build_targets_regular_witness :
  regular_file (ToyFS.path_exists project3) (ToyFS.is_file project3)
    "/p/src/lib/index.js" = true
  ∧ ∃ imp resolved ext,
      (startswith imp "." = true ∨ startswith imp "@/" = true)
      ∧ ToyFS.resolve
          (import_base ToyFS.parent ToyFS.joinpath imp "/p/src/lib/c.ts" "/p")
        = Ok resolved
      ∧ ext ∈ resolve_suffixes
      ∧ "/p/src/lib/index.js" = candidate ToyFS.path_of_str resolved ext.
Proof.
  apply (build_targets_regular ToyFS.parent ToyFS.joinpath ToyFS.resolve
           ToyFS.path_of_str (ToyFS.path_exists project3)
           (ToyFS.is_file project3) ToyFS.parts ToyFS.suffix
           (ToyFS.rglob project3) (ToyFS.read_text project3)
           "/p" ["ts"; "js"] graph3 "/p/src/lib/c.ts" "/p/src/lib/index.js").
  - vm_compute. reflexivity.
  - unfold edge. vm_compute. set_solver.
Defined.



(** ** Cycles run through keys *)

Lemma chain_sources (graph : Graph) (l : list Node) (y x : Node) :
  chain (edge graph) (l ++ [y]) → x ∈ l → x ∈ graph.*1.
Proof.
  induction l as [|z l IH]; [by intros _ ?%elem_of_nil|].
  simpl. intros [Hz Hl] [->|Hx]%elem_of_cons; [|by apply IH].
  destruct l as [|w l]; simpl in Hz; by eapply edge_source_key.
Qed.

Lemma elementary_cycle_keys (graph : Graph) (c : Cycle) (n : Node) :
  elementary_cycle graph c → n ∈ c → n ∈ graph.*1.
Proof.
  intros (n0 & l & -> & _ & Hchain) Hn.
  change (n0 :: l ++ [n0]) with ((n0 :: l) ++ [n0]) in *.
  apply elem_of_app in Hn as [Hn | ->%list_elem_of_singleton].
  - by eapply chain_sources.
  - eapply chain_sources; [done | left].
Qed.

Lemma chain_lookup (R : Node → Node → Prop) (l : list Node) (i : nat) (x y : Node) :
  chain R l → l !! i = Some x → l !! S i = Some y → R x y.
Proof.
  revert i. induction l as [|z l IH]; intros i; [done|].
  simpl. intros [Hz Hl]. destruct i as [|i]; simpl.
  - intros [= ->]. destruct l; [done|]. by intros [= ->].
  - by apply IH.
Qed.

(** X16. Every node of every cycle that [find_cycles] returns is a key of
    the graph, and each node of a cycle has an edge to the next one. *)
Theorem cycle_nodes_are_keys (graph : Graph) (cs : list Cycle) (c : Cycle) :
  find_cycles graph = Ok cs → c ∈ cs →
  (∀ n, n ∈ c → n ∈ graph.*1)
  ∧ (∀ i x y, c !! i = Some x → c !! S i = Some y → edge graph x y).
Proof.
  destruct (find_cycles_spec graph) as (st & _ & -> & Hinv & _).
  intros [= <-] Hc.
  assert (elementary_cycle graph c) as Hel.
  { eapply Forall_forall; [apply (inv_cycles _ _ Hinv) | done]. }
  split.
  - intros n. by apply elementary_cycle_keys.
  - destruct Hel as (n0 & l & -> & _ & Hchain). intros i x y.
    by apply chain_lookup.
Qed.

Lemma cycle_nodes_are_keys_witness :
  (∀ n, n ∈ ["/p/src/a.ts"; "/p/src/b.ts"; "/p/src/lib/c.ts"; "/p/src/a.ts"] →
        n ∈ graph3.*1)
  ∧ (∀ i x y,
       ["/p/src/a.ts"; "/p/src/b.ts"; "/p/src/lib/c.ts"; "/p/src/a.ts"] !! i
         = Some x →
       ["/p/src/a.ts"; "/p/src/b.ts"; "/p/src/lib/c.ts"; "/p/src/a.ts"] !! S i
         = Some y →
       edge graph3 x y).
Proof.
  apply (cycle_nodes_are_keys graph3
           [["/p/src/a.ts"; "/p/src/b.ts"; "/p/src/lib/c.ts"; "/p/src/a.ts"]]).
  - vm_compute. reflexivity.
  - left.
Defined.

(** ** The pipeline of [main] *)

Lemma for_each_Ok_elem {A S : Type} (body : S → A → result S) (l : list A)
    (s s' : S) (x : A) :
  for_each body l s = Ok s' → x ∈ l → ∃ s1 s2, body s1 x = Ok s2.
Proof.
  revert s. induction l as [|y l IH]; intros s; [by intros _ ?%elem_of_nil|].
  rewrite for_each_cons. intros (s1 & Hstep & Hrest)%bind_Ok.
  intros [->|Hx]%elem_of_cons; [by exists s, s1 | by eapply IH].
Qed.

Section Pipeline.
Variable parent : Path → Path.
Variable joinpath : Path → string → Path.
Variable resolve : Path → result Path.
Variable path_of_str : string → Path.
Variable path_exists : Path → bool.
Variable is_file : Path → bool.
Variable parts : Path → list string.
Variable suffix : Path → string.
Variable rglob : Path → string → list Path.
Variable read_text : Path → result string.

Local Abbreviation build' :=
  (build_dependency_graph parent joinpath resolve path_of_str path_exists
     is_file parts suffix rglob read_text).
Local Abbreviation import_edge' :=
  (import_edge parent joinpath resolve path_of_str path_exists is_file suffix
     read_text).
Local Abbreviation scanned' := (scanned parts rglob).

(** X17. Building the graph and then finding and de-duplicating the cycles:
    every node of every reported cycle is a file that was found under the
    root and not skipped (so no reported cycle passes through a skipped
    directory), and each file of the cycle has an import that resolves to
    the next one. *)
Theorem reported_cycles_scanned (path : Path) (extensions : list string)
    (g : Graph) (us : list Cycle) (c : Cycle) :
  build' path extensions = Ok g → find_unique_cycles g = Ok us → c ∈ us →
  (∀ n, n ∈ c → scanned' path extensions n)
  ∧ (∀ i x y, c !! i = Some x → c !! S i = Some y → import_edge' path x y).
Proof.
  intros Hbuild Hfind Hc.
  pose proof (build_spec _ _ _ _ _ _ _ _ _ _ _ _ _ Hbuild) as [Hedges Hwf].
  destruct (find_cycles_spec g) as (st & _ & Hfc & Hinv & _).
  unfold find_unique_cycles in Hfind. rewrite Hfc in Hfind. simpl in Hfind.
  unfold unique_cycles in Hfind.
  apply bind_Ok in Hfind as ([acc seen] & Hrun & [= <-]).
  apply dedup_loop_spec in Hrun as (kept & -> & Hsub & _). simpl in Hc.
  assert (elementary_cycle g c) as Hel.
  { eapply Forall_forall; [apply (inv_cycles _ _ Hinv)|].
    by eapply elem_of_sublist. }
  split.
  - intros n Hn. pose proof (elementary_cycle_keys g c n Hel Hn) as Hk.
    apply (graph_wf_key_edge g n Hwf) in Hk as [b Hb]. by apply Hedges in Hb as [? _].
  - destruct Hel as (n0 & l & -> & _ & Hchain). intros i x y Hx Hy.
    pose proof (chain_lookup _ _ _ _ _ Hchain Hx Hy) as He.
    by apply Hedges in He as [_ ?].
Qed.

(** X18. The builder has no handler around [resolve]: if [resolve] raises
    for the base path of a relative or aliased import of a scanned file,
    the whole construction raises and no graph is returned. *)
Theorem resolve_failure_aborts_build (path : Path) (extensions : list string)
    (a : Path) (imports : list string) (imp : string) (e : exn) :
  scanned' path extensions a →
  extract_imports read_text a (lang_of suffix a) = Ok imports →
  imp ∈ imports →
  startswith imp "." = true ∨ startswith imp "@/" = true →
  resolve (import_base parent joinpath imp a path) = Raise e →
  ∃ e', build' path extensions = Raise e'.
Proof.
  intros [Hfound Hskip] Hext Himp Hkind Hres.
  destruct (build' path extensions) as [g|e'] eqn:Hbuild; [exfalso|by eexists].
  unfold build_dependency_graph in Hbuild.
  destruct (for_each_Ok_elem _ _ _ _ a Hbuild Hfound) as (g1 & g2 & Hscan).
  unfold scan_file in Hscan. fold (skipped parts a) in Hscan.
  rewrite Hskip in Hscan. fold (lang_of suffix a) in Hscan.
  rewrite Hext in Hscan. simpl in Hscan.
  destruct (for_each_Ok_elem _ _ _ _ imp Hscan Himp) as (g3 & g4 & Hadd).
  unfold add_import in Hadd. apply bind_Ok in Hadd as (r & Hr & _).
  unfold resolve_import, import_base in *.
  destruct (startswith imp ".") eqn:Hdot; simpl in *.
  - by rewrite Hres in Hr.
  - destruct Hkind as [|Halias]; [done|]. rewrite Halias in Hr. simpl in Hr.
    by rewrite Hres in Hr.
Qed.

End Pipeline.

Lemma reported_cycles_scanned_witness :
  (∀ n, n ∈ ["/p/src/a.ts"; "/p/src/b.ts"; "/p/src/lib/c.ts"; "/p/src/a.ts"] →
        scanned3 n)
  ∧ (∀ i x y,
       ["/p/src/a.ts"; "/p/src/b.ts"; "/p/src/lib/c.ts"; "/p/src/a.ts"] !! i
         = Some x →
       ["/p/src/a.ts"; "/p/src/b.ts"; "/p/src/lib/c.ts"; "/p/src/a.ts"] !! S i
         = Some y →
       import_edge3 x y).
Proof.
  apply (reported_cycles_scanned ToyFS.parent ToyFS.joinpath ToyFS.resolve
           ToyFS.path_of_str (ToyFS.path_exists project3)
           (ToyFS.is_file project3) ToyFS.parts ToyFS.suffix
           (ToyFS.rglob project3) (ToyFS.read_text project3)
           "/p" ["ts"; "js"] graph3
           [["/p/src/a.ts"; "/p/src/b.ts"; "/p/src/lib/c.ts"; "/p/src/a.ts"]]).
  - vm_compute. reflexivity.
  - vm_compute. reflexivity.
  - left.
Defined.

Lemma resolve_failure_aborts_build_witness :
  ∃ e', build_dependency_graph ToyFS.parent ToyFS.joinpath resolve_fails
          ToyFS.path_of_str (ToyFS.path_exists project3)
          (ToyFS.is_file project3) ToyFS.parts ToyFS.suffix
          (ToyFS.rglob project3) (ToyFS.read_text project3)
          "/p" ["ts"; "js"] = Raise e'.
Proof.
  apply (resolve_failure_aborts_build ToyFS.parent ToyFS.joinpath resolve_fails
           ToyFS.path_of_str (ToyFS.path_exists project3)
           (ToyFS.is_file project3) ToyFS.parts ToyFS.suffix
           (ToyFS.rglob project3) (ToyFS.read_text project3)
           "/p" ["ts"; "js"] "/p/src/a.ts" ["./b"; "react"] "./b" OSError).
  - split; [|reflexivity]. vm_compute. set_solver.
  - vm_compute. reflexivity.
  - left.
  - left. reflexivity.
  - reflexivity.
Defined.

(** ** What the patterns capture *)

Lemma keeps_Chr (p : ascii → bool) : keeps_group (Chr p).
Proof.
  intros R cur grp k x. simpl. destruct (rest cur) as [|c s]; [done|].
  destruct (p c); [|done]. intros Hk. by eexists.
Qed.

Lemma keeps_Bol : keeps_group Bol.
Proof.
  intros R cur grp k x. simpl. destruct (bol cur); [|done]. intros Hk. by eexists.
Qed.

Lemma keeps_Eps : keeps_group Eps.
Proof. intros R cur grp k x. simpl. intros Hk. by eexists. Qed.

Lemma keeps_Seq (r1 r2 : regex) :
  keeps_group r1 → keeps_group r2 → keeps_group (Seq r1 r2).
Proof.
  intros H1 H2 R cur grp k x. simpl. intros [cur1 Hk]%H1. by apply H2 in Hk.
Qed.

Lemma keeps_Star (greedy : bool) (r : regex) :
  keeps_group r → keeps_group (Star greedy r).
Proof.
  intros Hr R cur grp k x. simpl.
  generalize (String.length (rest cur)) as n. intros n. revert cur.
  induction n as [|n IH]; intros cur; simpl.
  - intros Hk. by eexists.
  - assert (rmatch r cur grp
              (λ cur' grp',
                 if pos cur <? pos cur'
                 then star_loop (rmatch r) greedy k n cur' grp' else None)
            = Some x → ∃ cur', k cur' grp = Some x) as Hmore.
    { intros [cur1 H]%Hr. destruct (pos cur <? pos cur1); [|done].
      by apply IH in H. }
    destruct greedy.
    + destruct (rmatch r cur grp _) as [y|] eqn:Hm.
      * intros [= ->]. by apply Hmore.
      * intros Hk. by eexists.
    + destruct (k cur grp) as [y|] eqn:Hk.
      * intros [= ->]. by eexists.
      * apply Hmore.
Qed.

Lemma keeps_lit (s : string) : keeps_group (lit s).
Proof.
  induction s as [|c s IH]; simpl; [apply keeps_Eps|].
  apply keeps_Seq; [apply keeps_Chr | done].
Qed.

Lemma sets_Seq_l (P : string → Prop) (r1 r2 : regex) :
  sets_group P r1 → keeps_group r2 → sets_group P (Seq r1 r2).
Proof.
  intros H1 H2 R cur grp k x. simpl. intros (cur1 & s & Hs & Hk)%H1.
  apply H2 in Hk as [cur2 Hk]. by exists cur2, s.
Qed.

Lemma sets_Seq_r (P : string → Prop) (r1 r2 : regex) :
  keeps_group r1 → sets_group P r2 → sets_group P (Seq r1 r2).
Proof.
  intros H1 H2 R cur grp k x. simpl. intros [cur1 Hk]%H1. by apply H2 in Hk.
Qed.

Lemma substring_prefix (s t : string) :
  substring 0 (String.length s) (s +:+ t) = s.
Proof.
  induction s as [|c s IH]; simpl; [by destruct t|]. by rewrite IH.
Qed.

Lemma star_chr_span {R : Type} (p : ascii → bool) (greedy : bool)
    (k : cursor → option string → option R) (n : nat) (cur : cursor)
    (grp : option string) (x : R) :
  star_loop (rmatch (Chr p)) greedy k n cur grp = Some x →
  ∃ s cur', str_all p s = true ∧ rest cur = s +:+ rest cur'
            ∧ pos cur' = pos cur + String.length s
            ∧ k cur' grp = Some x.
Proof.
  revert cur. induction n as [|n IH]; intros cur; simpl.
  - intros Hk. exists "", cur. split_and!; [done | done | simpl; lia | done].
  - assert (match rest cur with
            | String c s =>
                if p c
                then if pos cur <? pos (cursor_next c s cur)
                     then star_loop (rmatch (Chr p)) greedy k n
                            (cursor_next c s cur) grp
                     else None
                else None
            | EmptyString => None
            end = Some x →
            ∃ s cur', str_all p s = true ∧ rest cur = s +:+ rest cur'
                      ∧ pos cur' = pos cur + String.length s
                      ∧ k cur' grp = Some x) as Hmore.
    { destruct (rest cur) as [|c s] eqn:Hrest; [done|].
      destruct (p c) eqn:Hp; [|done].
      destruct (pos cur <? pos (cursor_next c s cur)); [|done].
      intros (s' & cur' & Hall & Hs & Hpos & Hk)%IH. simpl in *.
      exists (String c s'), cur'. simpl. rewrite Hp, Hall.
      split_and!; [done | by rewrite Hs | lia | done]. }
    destruct greedy.
    + destruct (match rest cur with String _ _ => _ | EmptyString => _ end)
        as [y|] eqn:Hm.
      * intros [= ->]. by apply Hmore.
      * intros Hk. exists "", cur. split_and!; [done | done | simpl; lia | done].
    + destruct (k cur grp) as [y|] eqn:Hk.
      * intros [= ->]. exists "", cur. split_and!; [done | done | simpl; lia | done].
      * apply Hmore.
Qed.

Lemma sets_Group_plus (p : ascii → bool) :
  sets_group (target_ok p) (Group (plus (Chr p))).
Proof.
  intros R cur grp k x. unfold plus. simpl.
  destruct (rest cur) as [|c s] eqn:Hrest; [done|].
  destruct (p c) eqn:Hp; [|done].
  intros (s' & cur' & Hall & Hs & Hpos & Hk)%star_chr_span. simpl in *.
  exists cur', (String c s'). split; [|].
  - split; [done|]. simpl. by rewrite Hp, Hall.
  - replace (pos cur' - pos cur) with (String.length (String c s')) in Hk
      by (simpl; lia).
    rewrite Hs in Hk. simpl in Hk. by rewrite substring_prefix in Hk.
Qed.

Ltac keeps_tac :=
  repeat first [ apply keeps_lit | apply keeps_Chr | apply keeps_Bol
               | apply keeps_Eps | apply keeps_Star | apply keeps_Seq ].

Ltac sets_tac :=
  repeat first [ apply sets_Group_plus
               | apply sets_Seq_r; [solve [keeps_tac]|]
               | apply sets_Seq_l; [|solve [keeps_tac]] ].

Lemma sets_re_from (keyword : string) :
  sets_group (target_ok (λ c, negb (is_quote c))) (re_from keyword).
Proof. unfold re_from, quoted_target, spaces1, plus, quote, dot. sets_tac. Qed.

Lemma sets_re_call (keyword : string) :
  sets_group (target_ok (λ c, negb (is_quote c))) (re_call keyword).
Proof. unfold re_call, quoted_target, spaces0, quote. sets_tac. Qed.

Lemma sets_re_py_from :
  sets_group (target_ok (λ c, is_word c || Ascii.eqb c "."%char)) re_py_from.
Proof. unfold re_py_from, module_name, spaces1. sets_tac. Qed.

Lemma sets_re_py_import :
  sets_group (target_ok (λ c, is_word c || Ascii.eqb c "."%char)) re_py_import.
Proof. unfold re_py_import, module_name, spaces1. sets_tac. Qed.

Lemma sets_patterns_of (lang : string) :
  Forall (sets_group (target_ok (target_char lang))) (patterns_of lang).
Proof.
  unfold patterns_of, IMPORT_PATTERNS. cbn [dict_get].
  case_decide as Hts.
  { subst lang. change (target_char "ts") with (λ c : ascii, negb (is_quote c)).
    simpl. repeat constructor; first [apply sets_re_from | apply sets_re_call]. }
  case_decide as Hjs.
  { subst lang. change (target_char "js") with (λ c : ascii, negb (is_quote c)).
    simpl. repeat constructor; first [apply sets_re_from | apply sets_re_call]. }
  case_decide as Hpy; [|constructor].
  subst lang.
  change (target_char "py") with (λ c : ascii, is_word c || Ascii.eqb c "."%char).
  simpl. repeat constructor; [apply sets_re_py_from | apply sets_re_py_import].
Qed.

Lemma search_sets (P : string → Prop) (r : regex) (p : nat) (b : bool)
    (s : string) (start : nat) (cur' : cursor) (grp : option string) :
  sets_group P r → search r p b s = Some (start, (cur', grp)) →
  ∃ t, grp = Some t ∧ P t.
Proof.
  intros Hr. revert p b. induction s as [|c s IH]; intros p b; simpl.
  - destruct (match_at _ _) as [[c' g]|] eqn:Hm; [|done]. intros [= <- <- <-].
    unfold match_at in Hm. apply Hr in Hm as (c'' & t & Ht & [= _ <-]).
    by exists t.
  - destruct (match_at _ _) as [[c' g]|] eqn:Hm; [|apply IH].
    intros [= <- <- <-].
    unfold match_at in Hm. apply Hr in Hm as (c'' & t & Ht & [= _ <-]).
    by exists t.
Qed.

Lemma finditer_from_sets (P : string → Prop) (r : regex) (fuel : nat)
    (cur : cursor) :
  sets_group P r → Forall (λ m, P (m_group1 m)) (finditer_from fuel r cur).
Proof.
  intros Hr. revert cur. induction fuel as [|fuel IH]; intros cur; simpl;
    [constructor|].
  destruct (search r (pos cur) (bol cur) (rest cur))
    as [[start [cur' grp]]|] eqn:Hs; [|constructor].
  apply (search_sets P) in Hs as (t & -> & Ht); [|done].
  constructor; [done|].
  destruct (start <? pos cur'); [apply IH|].
  destruct (rest cur'); [constructor | apply IH].
Qed.


